(** * The maze topology engine of the-maze-runner

    A shallow embedding of [src/js/world/MazeGenerator.js] (classes
    [MazeGenerator] and [Level]), of the collision system that queries the
    maze and of the difficulty table that sizes it, followed by the
    properties of braiding, breadth-first distances, endpoint selection,
    collision and difficulty.

    Conventions of the embedding:
    - JS numbers holding grid coordinates, sizes and hop counts are [Z];
    - the values of [Math.random()] and the braid percentage are rationals
      [Q] (the draws are read from a stream [nat -> Q], one per call), and
      so are player positions and interpolated values, computed exactly;
    - the JS [Map] keyed by the template string [`${x},${y}`] is a
      [gmap string _], keyed by the same string;
    - a method that mutates [this] returns the new object;
    - a thrown [TypeError] and an exhausted iteration budget are [None]. *)

From Stdlib Require Import ZArith QArith Qround Qabs Lia Lqa Ascii.
From stdpp Require Import base numbers list sorting strings pretty gmap.

Local Open Scope Z_scope.

(** ** Cells, keys and the generator object *)

(** A JS object [{x, y}]. *)
Abbreviation Cell := (Z * Z)%type.

(** The template string [`${x},${y}`]. *)
Definition key (x y : Z) : string := pretty x +:+ "," +:+ pretty y.

(** The key of a cell object. *)
Definition ckey (c : Cell) : string := key c.1 c.2.

(** The fields of the [MazeGenerator] object. *)
Record MazeGenerator := mkMazeGenerator {
  width : Z;
  height : Z;
  algorithm : string;
  maze : gmap string bool;
  startPos : option Cell;
  exitPos : option Cell
}.

(** [isWall(x, y)]: [this.maze.get(key) === true]. *)
Definition isWall (m : MazeGenerator) (x y : Z) : bool :=
  match maze m !! key x y with
  | Some true => true
  | _ => false
  end.

(** [setWall(x, y, isWall)]: [this.maze.set(key, isWall)]. *)
Definition setWall (m : MazeGenerator) (x y : Z) (w : bool) : MazeGenerator :=
  mkMazeGenerator (width m) (height m) (algorithm m)
    (<[key x y := w]> (maze m)) (startPos m) (exitPos m).

(** [isInBounds(x, y)]. *)
Definition isInBounds (m : MazeGenerator) (x y : Z) : bool :=
  (0 <=? x) && (x <? width m) && (0 <=? y) && (y <? height m).

(** The cells visited by
    [for (y = 0; y < height; y++) for (x = 0; x < width; x++)],
    in the order of the visit (row-major). *)
Definition allCells (m : MazeGenerator) : list Cell :=
  y ← seqZ 0 (height m); x ← seqZ 0 (width m); [(x, y)].

(** North, East, South, West. *)
Definition directions : list (Z * Z) := [(0, -1); (1, 0); (0, 1); (-1, 0)].

(** The cells [(x + dx, y + dy)], in the order of [directions]. *)
Definition neighbours4 (x y : Z) : list Cell :=
  (λ d : Z * Z, (x + d.1, y + d.2)) <$> directions.

(** [getPassageNeighbors(x, y)]. *)
Definition getPassageNeighbors (m : MazeGenerator) (x y : Z) : list Cell :=
  filter (λ n : Cell, isInBounds m n.1 n.2 && negb (isWall m n.1 n.2))
         (neighbours4 x y).

(** [getWalledNeighbors(x, y)]. *)
Definition getWalledNeighbors (m : MazeGenerator) (x y : Z) : list Cell :=
  filter (λ n : Cell, isInBounds m n.1 n.2 && isWall m n.1 n.2)
         (neighbours4 x y).

(** [isDeadEnd(x, y)]. *)
Definition isDeadEnd (m : MazeGenerator) (x y : Z) : bool :=
  if isWall m x y then false
  else Nat.eqb (length (getPassageNeighbors m x y)) 1.

(** [findAllDeadEnds()]. *)
Definition findAllDeadEnds (m : MazeGenerator) : list Cell :=
  filter (λ c : Cell, negb (isWall m c.1 c.2) && isDeadEnd m c.1 c.2)
         (allCells m).

(** [getWalkablePositions()]. *)
Definition getWalkablePositions (m : MazeGenerator) : list Cell :=
  filter (λ c : Cell, negb (isWall m c.1 c.2)) (allCells m).

(** ** Braiding *)

(** [a < b] on the rationals, as a boolean. *)
Definition Qltb (a b : Q) : bool := negb (Qle_bool b a).

(** The body of the [forEach] of [braid], for one dead end.  The state is
    the generator object and the number of draws consumed so far.
    [walledNeighbors[i]] outside the array is [undefined], and reading
    [target.x] then throws. *)
Definition braidCell (percentage : Q) (draws : nat → Q)
    (st : MazeGenerator * nat) (cell : Cell) : option (MazeGenerator * nat) :=
  let '(m, k) := st in
  if Qltb (draws k * 100) percentage then
    let walledNeighbors := getWalledNeighbors m cell.1 cell.2 in
    if (0 <? length walledNeighbors)%nat then
      let i := Qfloor (draws (S k) * inject_Z (Z.of_nat (length walledNeighbors))) in
      match (if 0 <=? i then walledNeighbors !! Z.to_nat i else None) with
      | Some target => Some (setWall m target.1 target.2 false, S (S k))
      | None => None
      end
    else Some (m, S k)
  else Some (m, S k).

(** The [forEach] over the dead ends found before the loop. *)
Fixpoint braidLoop (percentage : Q) (draws : nat → Q)
    (deadEnds : list Cell) (st : MazeGenerator * nat)
    : option (MazeGenerator * nat) :=
  match deadEnds with
  | [] => Some st
  | cell :: rest =>
      match braidCell percentage draws st cell with
      | Some st' => braidLoop percentage draws rest st'
      | None => None
      end
  end.

(** [braid(percentage)]. *)
Definition braid (percentage : Q) (draws : nat → Q) (m : MazeGenerator)
    : option MazeGenerator :=
  if Qle_bool percentage 0 then Some m
  else fst <$> braidLoop percentage draws (findAllDeadEnds m) (m, 0%nat).

(** ** Breadth-first distances *)

(** The body of [for (const neighbor of neighbors)] in
    [calculateDistances]; [dist] is [current.dist].  The state is the queue
    (entries [{x, y, dist}]) and the [distances] map. *)
Definition visit (dist : Z) (st : list (Cell * Z) * gmap string Z)
    (neighbor : Cell) : list (Cell * Z) * gmap string Z :=
  match st.2 !! ckey neighbor with
  | Some _ => st
  | None => (st.1 ++ [(neighbor, dist + 1)], <[ckey neighbor := dist + 1]> st.2)
  end.

(** The [while (queue.length > 0)] loop.  Each iteration takes one unit
    of [fuel]; leaving the loop takes none. *)
Fixpoint bfsLoop (fuel : nat) (m : MazeGenerator)
    (queue : list (Cell * Z)) (distances : gmap string Z)
    : option (gmap string Z) :=
  match queue with
  | [] => Some distances
  | (current, dist) :: queue' =>
      match fuel with
      | O => None
      | S fuel' =>
          let neighbors := getPassageNeighbors m current.1 current.2 in
          let st := foldl (visit dist) (queue', distances) neighbors in
          bfsLoop fuel' m st.1 st.2
      end
  end.

(** [calculateDistances(startX, startY)].  The iteration budget is one
    more than the number of cells of the grid; [calculateDistances_total]
    shows that it is never exhausted. *)
Definition calculateDistances (m : MazeGenerator) (startX startY : Z)
    : option (gmap string Z) :=
  bfsLoop (S (length (allCells m))) m
    [((startX, startY), 0)] {[key startX startY := 0]}.

(** ** Endpoint selection *)

(** "On or near a border (within 2 cells of edge)". *)
Definition nearBorder (m : MazeGenerator) (x y : Z) : bool :=
  (x <=? 1) || (x >=? width m - 2) || (y <=? 1) || (y >=? height m - 2).

(** Step 1 of [setStartAndExit]. *)
Definition borderCells (m : MazeGenerator) : list Cell :=
  filter (λ c : Cell, negb (isWall m c.1 c.2) && nearBorder m c.1 c.2)
         (allCells m).

(** The variables [maxPathDistance], [bestStart], [bestExit]. *)
Abbreviation Best := (Z * Cell * Cell)%type.

(** The body of the inner loop, for [borderCells[i] = bi] and
    [borderCells[j] = bj]. *)
Definition selectInner (distances : gmap string Z) (bi : Cell)
    (best : Best) (bj : Cell) : Best :=
  match distances !! ckey bj with
  | Some distance =>
      if best.1.1 <? distance then (distance, bi, bj) else best
  | None => best
  end.

(** The loop over [i], on the border cells from index [i] on: the inner
    loop over [j > i] runs over the cells that follow [borderCells[i]]. *)
Fixpoint selectLoop (m : MazeGenerator) (cells : list Cell) (best : Best)
    : option Best :=
  match cells with
  | [] => Some best
  | bi :: rest =>
      distances ← calculateDistances m bi.1 bi.2;
      selectLoop m rest (foldl (selectInner distances bi) best rest)
  end.

(** The assignments to [this.startPos] and [this.exitPos]. *)
Definition setEndpoints (m : MazeGenerator) (s e : Cell) : MazeGenerator :=
  mkMazeGenerator (width m) (height m) (algorithm m) (maze m) (Some s) (Some e).

(** [setStartAndExit()]. *)
Definition setStartAndExit (m : MazeGenerator) : option MazeGenerator :=
  match borderCells m with
  | b0 :: b1 :: _ =>
      best ← selectLoop m (borderCells m) (0, b0, b1);
      let bestStart := best.1.2 in
      let bestExit := best.2 in
      let startSum := bestStart.1 + bestStart.2 in
      let exitSum := bestExit.1 + bestExit.2 in
      if startSum <? exitSum then Some (setEndpoints m bestStart bestExit)
      else Some (setEndpoints m bestExit bestStart)
  | _ => Some (setEndpoints m (1, 1) (width m - 2, height m - 2))
  end.

(** ** Generation *)

(** The three ROT.js map generators the [switch] can construct. *)
Inductive RotMap : Type :=
  | EllerMaze (w h : Z)
  | IceyMaze (w h regularity : Z)
  | DividedMaze (w h : Z).

(** The [switch (this.algorithm)] of [generate]. *)
Definition selectGenerator (m : MazeGenerator) : RotMap :=
  if String.eqb (algorithm m) "eller" then EllerMaze (width m) (height m)
  else if String.eqb (algorithm m) "icey" then IceyMaze (width m) (height m) 0
  else if String.eqb (algorithm m) "divided" then DividedMaze (width m) (height m)
  else DividedMaze (width m) (height m).

(** [this.maze.clear()]. *)
Definition clearMaze (m : MazeGenerator) : MazeGenerator :=
  mkMazeGenerator (width m) (height m) (algorithm m) ∅ (startPos m) (exitPos m).

(** "Initialize all cells as walls". *)
Definition fillWalls (m : MazeGenerator) : MazeGenerator :=
  foldl (λ acc (c : Cell), setWall acc c.1 c.2 true) m (allCells m).

(** The callback passed to [generator.create]: [0] is a passage, [1] a
    wall. *)
Definition carve (m : MazeGenerator) (call : Z * Z * Z) : MazeGenerator :=
  setWall m call.1.1 call.1.2 (call.2 =? 1).

Section Generate.

(** ROT.js is an external library.  [rotCreate g seed] is the sequence
    of calls [callback(x, y, value)] that [g.create(callback)] makes when
    the ROT.js random generator was seeded with [seed]. *)
Variable rotCreate : RotMap → Z → list (Z * Z * Z).

(** [generate()], with the seed ([Date.now()] plus a random offset) as
    an input. *)
Definition generate (seed : Z) (m : MazeGenerator) : option MazeGenerator :=
  let m1 := fillWalls (clearMaze m) in
  let generator := selectGenerator m1 in
  let m2 := foldl carve m1 (rotCreate generator seed) in
  setStartAndExit m2.

End Generate.

(** ** The bounds check of the collision system *)

(** [getDimensions()]. *)
Definition getDimensions (m : MazeGenerator) : Z * Z := (width m, height m).

(** [CollisionSystem.isCollidingWithWall(x, y)], on rational positions. *)
Definition isCollidingWithWall (m : MazeGenerator) (x y : Q) : bool :=
  isWall m (Qfloor (x + (1 # 2))%Q) (Qfloor (y + (1 # 2))%Q).

(** [CollisionSystem.canMoveTo(x, y)]. *)
Definition canMoveTo (m : MazeGenerator) (x y : Q) : bool :=
  let '(width, height) := getDimensions m in
  if Qltb x (1 # 2) || Qle_bool (inject_Z width - (1 # 2))%Q x
     || Qltb y (1 # 2) || Qle_bool (inject_Z height - (1 # 2))%Q y
  then false
  else negb (isCollidingWithWall m x y).

(** * Vocabulary of the properties *)

(** A string without a comma. *)
Fixpoint commaFree (s : string) : Prop :=
  match s with
  | EmptyString => True
  | String a s' => a ≠ ","%char ∧ commaFree s'
  end.

(** Two cells are orthogonally adjacent. *)
Definition adjacent (a b : Cell) : Prop :=
  Z.abs (a.1 - b.1) + Z.abs (a.2 - b.2) = 1.

(** A passage cell of the grid: in bounds and not a wall. *)
Definition passage (m : MazeGenerator) (c : Cell) : Prop :=
  isInBounds m c.1 c.2 = true ∧ isWall m c.1 c.2 = false.

(** What the loop of [calculateDistances] explores from the source [s]:
    [walk m s c n] is a chain of [n] moves, each to a cell listed by
    [getPassageNeighbors].  The source itself is not tested. *)
Inductive walk (m : MazeGenerator) (s : Cell) : Cell → nat → Prop :=
  | walk_here : walk m s s 0
  | walk_step c n c' :
      walk m s c n → c' ∈ getPassageNeighbors m c.1 c.2 → walk m s c' (S n).

(** A path of [n] hops from [s] to a cell through orthogonally adjacent
    passage cells of the grid, the source included. *)
Inductive passagePath (m : MazeGenerator) (s : Cell) : Cell → nat → Prop :=
  | path_start : passage m s → passagePath m s s 0
  | path_extend c n c' :
      passagePath m s c n → adjacent c c' → passage m c' →
      passagePath m s c' (S n).

(** In-bounds cells that have no entry in [distances]. *)
Definition unvisited (m : MazeGenerator) (distances : gmap string Z) : list Cell :=
  filter (λ c : Cell, distances !! ckey c = None) (allCells m).

(** The order of the queue entries: by distance. *)
Definition queueOrder (a b : Cell * Z) : Prop := a.2 ≤ b.2.

(** The invariant of the [while] loop, at the loop test. *)
Record bfsInv (m : MazeGenerator) (s : Cell)
    (queue : list (Cell * Z)) (distances : gmap string Z) : Prop := {
  inv_sound : ∀ k d, distances !! k = Some d →
    0 ≤ d ∧ ∃ c, k = ckey c ∧ walk m s c (Z.to_nat d);
  inv_queue : ∀ c d, (c, d) ∈ queue → distances !! ckey c = Some d;
  inv_sorted : StronglySorted queueOrder queue;
  inv_level : ∀ k d e, distances !! k = Some d → e ∈ queue → d ≤ e.2 + 1;
  inv_closed : ∀ c d, distances !! ckey c = Some d →
    (c, d) ∈ queue
    ∨ ∀ u, u ∈ getPassageNeighbors m c.1 c.2 →
           ∃ d', distances !! ckey u = Some d' ∧ d' ≤ d + 1;
  inv_source : distances !! ckey s = Some 0
}.

(** The invariant of the [for] loop over the neighbours of the dequeued
    entry [(v, dv)], with [pending] the neighbours still to visit. *)
Record bfsMid (m : MazeGenerator) (s : Cell)
    (v : Cell) (dv : Z) (pending : list Cell)
    (queue : list (Cell * Z)) (distances : gmap string Z) : Prop := {
  mid_sound : ∀ k d, distances !! k = Some d →
    0 ≤ d ∧ ∃ c, k = ckey c ∧ walk m s c (Z.to_nat d);
  mid_queue : ∀ c d, (c, d) ∈ queue → distances !! ckey c = Some d;
  mid_current : distances !! ckey v = Some dv;
  mid_sorted : StronglySorted queueOrder queue;
  mid_range : ∀ e, e ∈ queue → dv ≤ e.2 ≤ dv + 1;
  mid_level : ∀ k d, distances !! k = Some d → d ≤ dv + 1;
  mid_closed : ∀ c d, distances !! ckey c = Some d →
    (c, d) ∈ queue
    ∨ (c = v ∧ ∀ u, u ∈ getPassageNeighbors m v.1 v.2 →
                    u ∈ pending ∨ is_Some (distances !! ckey u))
    ∨ ∀ u, u ∈ getPassageNeighbors m c.1 c.2 →
           ∃ d', distances !! ckey u = Some d' ∧ d' ≤ d + 1;
  mid_source : distances !! ckey s = Some 0
}.

(** A dead end of the grid: a passage cell with exactly one passage
    neighbour. *)
Definition deadEnd (m : MazeGenerator) (c : Cell) : Prop :=
  passage m c ∧ length (getPassageNeighbors m c.1 c.2) = 1%nat.

(** Every passage cell is reachable from every other one. *)
Definition fullyConnected (m : MazeGenerator) : Prop :=
  ∀ a b, passage m a → passage m b → ∃ n, passagePath m a b n.

(** The random draws are values of [Math.random()]. *)
Definition validDraws (draws : nat → Q) : Prop :=
  ∀ k, (0 <= draws k)%Q ∧ (draws k < 1)%Q.

(** The invariant of the [forEach] of [braid]: [m] is [m0] in which some
    walls that touch a dead end of [m0] were carved. *)
Definition carvedFrom (m0 m : MazeGenerator) : Prop :=
  width m = width m0 ∧ height m = height m0 ∧ algorithm m = algorithm m0
  ∧ startPos m = startPos m0 ∧ exitPos m = exitPos m0
  ∧ ∀ k, maze m !! k = maze m0 !! k
         ∨ (maze m !! k = Some false
            ∧ ∃ t d, k = ckey t ∧ isInBounds m0 t.1 t.2 = true
                     ∧ isWall m0 t.1 t.2 = true ∧ deadEnd m0 d ∧ adjacent d t).

(** The breadth-first distance from [a] to [b]: the entry of [b] in the
    map computed from [a], when there is one. *)
Definition bfsDistance (m : MazeGenerator) (a b : Cell) : option Z :=
  distances ← calculateDistances m a.1 a.2; distances !! ckey b.

(** The pairs [(l[i], l[j])] with [i < j], in the order in which the two
    nested loops of [setStartAndExit] meet them. *)
Fixpoint orderedPairs (l : list Cell) : list (Cell * Cell) :=
  match l with
  | [] => []
  | a :: rest => ((λ b, (a, b)) <$> rest) ++ orderedPairs rest
  end.

(** The update of [maxPathDistance], [bestStart], [bestExit] at one pair. *)
Definition pick (m : MazeGenerator) (best : Best) (p : Cell * Cell) : Best :=
  match bfsDistance m p.1 p.2 with
  | Some distance => if best.1.1 <? distance then (distance, p.1, p.2) else best
  | None => best
  end.

(** The sum [x + y] of a cell. *)
Definition coordSum (c : Cell) : Z := c.1 + c.2.

(** The winning pair: the result of the two nested loops. *)
Definition winner (m : MazeGenerator) (b0 b1 : Cell) : Best :=
  foldl (pick m) (0, b0, b1) (orderedPairs (borderCells m)).

(** The endpoints of [m'] are two distinct cells that [isWall] reports as
    non-walls, both within 2 cells of a grid edge. *)
Definition endpointsValid (m' : MazeGenerator) : Prop :=
  ∃ s e, startPos m' = Some s ∧ exitPos m' = Some e
    ∧ s ≠ e
    ∧ isWall m' s.1 s.2 = false ∧ isWall m' e.1 e.2 = false
    ∧ (s.1 ≤ 1 ∨ width m' - 2 ≤ s.1 ∨ s.2 ≤ 1 ∨ height m' - 2 ≤ s.2)
    ∧ (e.1 ≤ 1 ∨ width m' - 2 ≤ e.1 ∨ e.2 ≤ 1 ∨ height m' - 2 ≤ e.2).

(** Two generator objects with the same dimensions and the same cell
    states inside the bounds. *)
Definition sameGrid (m1 m2 : MazeGenerator) : Prop :=
  width m1 = width m2 ∧ height m1 = height m2
  ∧ ∀ x y, isInBounds m1 x y = true → isWall m1 x y = isWall m2 x y.

(** The generator object with another algorithm key. *)
Definition setAlgorithm (m : MazeGenerator) (alg : string) : MazeGenerator :=
  mkMazeGenerator (width m) (height m) alg (maze m) (startPos m) (exitPos m).

(** Every key of the map is the key of a cell inside the bounds. *)
Definition keysInBounds (m : MazeGenerator) : Prop :=
  ∀ k, is_Some (maze m !! k) → ∃ x y, k = key x y ∧ isInBounds m x y = true.

(** The grid before endpoint selection, as [generate] builds it. *)
Definition generatedGrid (rotCreate : RotMap → Z → list (Z * Z * Z))
    (seed : Z) (m : MazeGenerator) : MazeGenerator :=
  foldl carve (fillWalls (clearMaze m))
    (rotCreate (selectGenerator (fillWalls (clearMaze m))) seed).

(** ** Concrete grids, used to run the definitions *)

(** A [w] by [h] grid of walls in which the listed cells were carved. *)
Definition mazeOfPassages (w h : Z) (passages : list Cell) : MazeGenerator :=
  foldl (λ acc (c : Cell), setWall acc c.1 c.2 false)
        (fillWalls (mkMazeGenerator w h "divided" ∅ None None)) passages.

(** A 5 by 5 grid with a U-shaped corridor. *)
Definition grid5 : MazeGenerator :=
  mazeOfPassages 5 5 [(1, 1); (2, 1); (3, 1); (3, 2); (3, 3); (1, 2); (1, 3)].

(** The same cells in another object: another algorithm key, endpoints
    already set, and a stray entry outside the bounds. *)
Definition grid5Relabelled : MazeGenerator :=
  setWall (mkMazeGenerator 5 5 "eller" (maze grid5) (Some (0, 0)) (Some (4, 4)))
          7 7 true.

(** A freshly constructed generator object, 5 wide and 4 high. *)
Definition emptyGenerator54 : MazeGenerator :=
  mkMazeGenerator 5 4 "eller" ∅ None None.

(** A stream of draws: 0 at even positions, 1/2 at odd ones. *)
Definition alternatingDraws (k : nat) : Q :=
  if Nat.even k then 0 else 1 # 2.

(** A stand-in for a ROT.js generator: it reports every cell of the map
    once, a wall on the outer ring and a passage inside, whatever the
    seed. *)
Definition rotRing (g : RotMap) (seed : Z) : list (Z * Z * Z) :=
  let '(w, h) := match g with
                 | EllerMaze w h | IceyMaze w h _ | DividedMaze w h => (w, h)
                 end in
  x ← seqZ 0 w; y ← seqZ 0 h;
  [(x, y, if (x =? 0) || (y =? 0) || (x =? w - 1) || (y =? h - 1) then 1 else 0)].

(** * The rest of the maze object, its consumers and its caller *)

(** ** Queries of [MazeGenerator] *)

(** The debug count at the end of [generate]: the cells of the scan for
    which [isWall] holds. *)
Definition wallCount (m : MazeGenerator) : nat :=
  length (filter (λ c : Cell, isWall m c.1 c.2) (allCells m)).

(** [getStartPosition()]: a copy of [this.startPos].  The copy of [null]
    is the empty object, whose [x] and [y] are undefined: [None]. *)
Definition getStartPosition (m : MazeGenerator) : option Cell := startPos m.


(** The value of the last call [callback(x, y, value)] made for the cell
    [(x, y)], if there was one. *)
Definition lastReport (calls : list (Z * Z * Z)) (x y : Z) : option Z :=
  snd <$> last (filter (λ call : Z * Z * Z, call.1 = (x, y)) calls).

(** The second grid has the dimensions of the first and all its
    passages. *)
Definition grows (m1 m2 : MazeGenerator) : Prop :=
  width m2 = width m1 ∧ height m2 = height m1
  ∧ ∀ x y, isWall m1 x y = false → isWall m2 x y = false.

(** ** The collision system *)

(** [CollisionSystem.getValidPosition(currentX, currentY, targetX,
    targetY)]. *)
Definition getValidPosition (m : MazeGenerator)
    (currentX currentY targetX targetY : Q) : Q * Q :=
  if canMoveTo m targetX targetY then (targetX, targetY)
  else if canMoveTo m targetX currentY then (targetX, currentY)
  else if canMoveTo m currentX targetY then (currentX, targetY)
  else (currentX, currentY).



(** ** Levels *)

(** The fields of a [Level]; [D] is the type of the difficulty
    descriptor it carries.  [completionTime] is [null] until the level is
    completed. *)
Record Level (D : Type) := mkLevel {
  mazeGenerator : MazeGenerator;
  levelNumber : Z;
  difficulty : D;
  startTime : Z;
  completionTime : option Z;
  completed : bool
}.

Arguments mkLevel {D}.
Arguments mazeGenerator {D}.
Arguments levelNumber {D}.
Arguments difficulty {D}.
Arguments startTime {D}.
Arguments completionTime {D}.
Arguments completed {D}.

(** [new Level(mazeGenerator, levelNumber, difficulty)], at the time
    [now] read from [Date.now()]. *)
Definition newLevel {D} (now : Z) (mazeGen : MazeGenerator) (number : Z)
    (diff : D) : Level D :=
  mkLevel mazeGen number diff now None false.

(** [Level.complete()], at the time [now] read from [Date.now()]. *)
Definition complete {D} (now : Z) (l : Level D) : Level D :=
  if completed l then l
  else mkLevel (mazeGenerator l) (levelNumber l) (difficulty l) (startTime l)
         (Some (now - startTime l)) true.

(** The cell has been dealt with: it has two passage neighbours or more,
    or no walled neighbour is left. *)
Definition saturatedAt (m : MazeGenerator) (c : Cell) : Prop :=
  (2 ≤ length (getPassageNeighbors m c.1 c.2))%nat
  ∨ getWalledNeighbors m c.1 c.2 = [].

(** A 5 by 5 grid with two passage cells that do not touch. *)
Definition gridIslands : MazeGenerator := mazeOfPassages 5 5 [(1, 1); (3, 3)].


(** * The caller: difficulty of a level and the maze of a level *)

(** The second bound of a level band: a number or [Infinity]. *)
Inductive Bound : Type :=
  | Finite (n : Z)
  | Infinity.

(** An entry of [DIFFICULTY_TIERS]. *)
Record Tier := mkTier {
  name : string;
  levels : Z * Bound;
  algorithms : list string;
  sizeRange : Z * Z;
  braidingRange : Z * Z;
  description : string
}.

(** [DIFFICULTY_TIERS]. *)
Definition DIFFICULTY_TIERS : list Tier := [
  mkTier "Learning" (1, Finite 10) ["binary"; "sidewinder"] (15, 25) (0, 0)
    "Predictable patterns help players learn mechanics";
  mkTier "Skill Building" (11, Finite 25) ["prim"; "kruskal"] (25, 40) (0, 10)
    "True branching without bias and multiple short paths";
  mkTier "Challenge" (26, Finite 50) ["huntandkill"; "growingtree"]
    (40, 60) (10, 25)
    "Balanced corridors and branches with harder navigation";
  mkTier "Expert" (51, Finite 100) ["wilson"; "growingtree_mixed"]
    (60, 80) (25, 50)
    "Complex decision trees where loops make tracking difficult";
  mkTier "Master" (101, Infinity) ["all"] (80, 100) (50, 100)
    "Maximum variety prevents pattern recognition"
].

(** [lerp(start, end, t)], on exact rationals. *)
Definition lerp (start stop t : Q) : Q := start + (stop - start) * t.

(** [level <= bound]. *)
Definition leBound (level : Z) (b : Bound) : bool :=
  match b with
  | Finite n => level <=? n
  | Infinity => true
  end.

(** [tiers.find(t => level >= t.levels[0] && level <= t.levels[1])]. *)
Definition tierFor (level : Z) (tiers : list Tier) : option Tier :=
  List.find (λ t, ((levels t).1 <=? level) && leBound level (levels t).2) tiers.

(** [(level - lo) / (hi - lo)].  A finite number divided by [Infinity] is
    0.  A division by 0 gives [NaN] or an infinity, which are not
    rationals: [None]. *)
Definition tierProgressOf (level lo : Z) (hi : Bound) : option Q :=
  match hi with
  | Infinity => Some 0%Q
  | Finite n =>
      if n =? lo then None
      else Some (inject_Z (level - lo) / inject_Z (n - lo))%Q
  end.

(** [array[i]] for a number [i]: undefined ([None]) outside the array. *)
Definition jsIndex {A} (array : list A) (i : Z) : option A :=
  if 0 <=? i then array !! Z.to_nat i else None.

(** The descriptor that [getDifficultyForLevel] builds. *)
Record Difficulty := mkDifficulty {
  tier : string;
  mazeSize : Z;
  braidingPercent : Z;
  algorithmName : option string;
  level : Z
}.

(** What [getDifficultyForLevel] returns: a descriptor, or the last tier
    of the list itself (undefined for an empty list) when no band holds
    the level, or a descriptor whose interpolated fields are not numbers
    when the band of the tier is a single level. *)
Inductive DifficultyResult : Type :=
  | FromTier (d : Difficulty)
  | HighestTier (t : option Tier)
  | NotANumber.

(** [getDifficultyForLevel(level, tiers)]. *)
Definition getDifficultyForLevel (level : Z) (tiers : list Tier)
    : DifficultyResult :=
  match tierFor level tiers with
  | None => HighestTier (last tiers)
  | Some t =>
      match tierProgressOf level (levels t).1 (levels t).2 with
      | None => NotANumber
      | Some tierProgress =>
          let size :=
            Qfloor (lerp (inject_Z (sizeRange t).1) (inject_Z (sizeRange t).2)
                         tierProgress) in
          let braiding :=
            Qfloor (lerp (inject_Z (braidingRange t).1)
                         (inject_Z (braidingRange t).2) tierProgress) in
          let algorithm :=
            if bool_decide (head (algorithms t) = Some "all") then
              let allAlgorithms :=
                ["prim"; "kruskal"; "huntandkill"; "wilson"; "growingtree"] in
              jsIndex allAlgorithms (Z.rem level (Z.of_nat (length allAlgorithms)))
            else
              jsIndex (algorithms t)
                      (Z.rem level (Z.of_nat (length (algorithms t)))) in
          FromTier (mkDifficulty (name t) size braiding algorithm level)
      end
  end.

(** [new MazeGenerator(width, height, algorithm)]. *)
Definition newMazeGenerator (w h : Z) (alg : string) : MazeGenerator :=
  mkMazeGenerator w h alg ∅ None None.

(** The maze that [generateLevel] builds from the descriptor of the
    level: a square of side at most 60, always with the ['divided'] key,
    generated and then braided. *)
Definition generateLevelMaze (rotCreate : RotMap → Z → list (Z * Z * Z))
    (seed : Z) (draws : nat → Q) (d : Difficulty) : option MazeGenerator :=
  let cappedSize := Z.min (mazeSize d) 60 in
  let mazeGen := newMazeGenerator cappedSize cappedSize "divided" in
  generated ← generate rotCreate seed mazeGen;
  braid (inject_Z (braidingPercent d)) draws generated.

(** The tier has a band of more than one level, or an open one, and its
    two ranges are in order. *)
Definition wellFormedTier (t : Tier) : Prop :=
  (match (levels t).2 with Finite n => (levels t).1 < n | Infinity => True end)
  ∧ (sizeRange t).1 ≤ (sizeRange t).2
  ∧ (braidingRange t).1 ≤ (braidingRange t).2.

(** * Properties *)

(** ** The definitions at work *)

Example key_negative : key (-3) 12 = "-3,12".
Proof. reflexivity. Qed.

Example allCells_row_major :
  allCells (mkMazeGenerator 3 2 "eller" ∅ None None)
  = [(0, 0); (1, 0); (2, 0); (0, 1); (1, 1); (2, 1)].
Proof. reflexivity. Qed.

Example isWall_unset_cell : isWall emptyGenerator54 2 2 = false.
Proof. reflexivity. Qed.

Example borderCells_grid5 :
  borderCells grid5 = [(1, 1); (2, 1); (3, 1); (1, 2); (3, 2); (1, 3); (3, 3)].
Proof. by vm_compute. Qed.

Example findAllDeadEnds_grid5 : findAllDeadEnds grid5 = [(1, 3); (3, 3)].
Proof. by vm_compute. Qed.

Example calculateDistances_grid5 :
  calculateDistances grid5 1 3
  = Some (list_to_map [("1,3", 0); ("1,2", 1); ("1,1", 2); ("2,1", 3);
                       ("3,1", 4); ("3,2", 5); ("3,3", 6)]).
Proof. by vm_compute. Qed.

Example setStartAndExit_grid5 :
  (λ m', (startPos m', exitPos m')) <$> setStartAndExit grid5
  = Some (Some (1, 3), Some (3, 3)).
Proof. by vm_compute. Qed.

(** Both dead ends of [grid5] draw 0 for the test and 1/2 for the index,
    which selects the second of their three walled neighbours (East,
    South, West): [(1, 3)] carves [(1, 4)] and [(3, 3)] carves [(3, 4)]. *)
Example braid_grid5 :
  getWalkablePositions <$> braid 100 alternatingDraws grid5
  = Some [(1, 1); (2, 1); (3, 1); (1, 2); (3, 2); (1, 3); (3, 3);
          (1, 4); (3, 4)].
Proof. by vm_compute. Qed.

Example generate_ring_5_4 :
  (λ m', (startPos m', exitPos m')) <$> generate rotRing 7 emptyGenerator54
  = Some (Some (1, 1), Some (3, 2)).
Proof. by vm_compute. Qed.

(** ** Keys are injective *)

Lemma pretty_N_char_comma (x : N) : pretty_N_char x ≠ ","%char.
Proof. unfold pretty_N_char. by repeat case_match. Qed.

Lemma pretty_N_go_commaFree (x : N) (s : string) :
  commaFree s → commaFree (pretty_N_go x s).
Proof.
  revert s. induction (N.lt_wf_0 x) as [x _ IH]; intros s Hs.
  destruct (decide (x = 0%N)) as [->|Hx].
  - by rewrite pretty_N_go_0.
  - rewrite pretty_N_go_step by lia. apply IH.
    + apply N.div_lt; lia.
    + split; [apply pretty_N_char_comma | done].
Qed.

Lemma pretty_N_commaFree (x : N) : commaFree (pretty x).
Proof.
  unfold pretty, pretty_N. case_decide.
  - by repeat split.
  - by apply pretty_N_go_commaFree.
Qed.

Lemma pretty_Z_commaFree (x : Z) : commaFree (pretty x).
Proof.
  destruct x as [|p|p]; unfold pretty, pretty_Z.
  - by repeat split.
  - apply (pretty_N_commaFree (N.pos p)).
  - split; [done | apply (pretty_N_commaFree (N.pos p))].
Qed.

Lemma comma_split_inj (s1 s2 t1 t2 : string) :
  commaFree s1 → commaFree s2 →
  s1 +:+ "," +:+ t1 = s2 +:+ "," +:+ t2 → s1 = s2 ∧ t1 = t2.
Proof.
  revert s2. induction s1 as [|a s1 IH]; intros [|b s2] H1 H2 Heq; simpl in *.
  - by simplify_eq.
  - destruct H2 as [Hb _]. by simplify_eq.
  - destruct H1 as [Ha _]. by simplify_eq.
  - destruct H1 as [_ H1], H2 as [_ H2]. simplify_eq.
    destruct (IH s2 H1 H2) as [-> ->]; done.
Qed.

Lemma key_inj (x y x' y' : Z) : key x y = key x' y' → x = x' ∧ y = y'.
Proof.
  unfold key. intros Heq.
  apply comma_split_inj in Heq as [Hx Hy]; try apply pretty_Z_commaFree.
  split; by apply (inj pretty).
Qed.

Lemma ckey_inj (c c' : Cell) : ckey c = ckey c' → c = c'.
Proof.
  destruct c, c'. unfold ckey; simpl. intros H.
  apply key_inj in H as [-> ->]. done.
Qed.

Lemma key_ne (x y x' y' : Z) : (x, y) ≠ (x', y') → key x y ≠ key x' y'.
Proof. intros Hne Heq. apply key_inj in Heq as [-> ->]. done. Qed.

(** ** The grid scan, walls and neighbours *)

Lemma isInBounds_spec m x y :
  isInBounds m x y = true ↔ 0 ≤ x < width m ∧ 0 ≤ y < height m.
Proof. unfold isInBounds. rewrite !andb_true_iff. lia. Qed.

Lemma elem_of_allCells m (c : Cell) :
  c ∈ allCells m ↔ isInBounds m c.1 c.2 = true.
Proof.
  rewrite isInBounds_spec. unfold allCells. rewrite list_elem_of_bind.
  split.
  - intros (y & Hc & Hy). apply list_elem_of_bind in Hc as (x & Hc & Hx).
    apply list_elem_of_singleton in Hc as ->.
    apply elem_of_seqZ in Hx, Hy. simpl; lia.
  - intros [Hx Hy]. exists c.2. split; [|apply elem_of_seqZ; lia].
    apply list_elem_of_bind. exists c.1.
    split; [destruct c; apply list_elem_of_singleton; done|apply elem_of_seqZ; lia].
Qed.

Lemma NoDup_allCells m : NoDup (allCells m).
Proof.
  unfold allCells. apply NoDup_bind; [| |apply NoDup_seqZ].
  - intros y1 y2 c _ _ H1 H2.
    apply list_elem_of_bind in H1 as (x1 & H1 & _).
    apply list_elem_of_bind in H2 as (x2 & H2 & _).
    apply list_elem_of_singleton in H1, H2. by simplify_eq.
  - intros y _. apply NoDup_bind; [| |apply NoDup_seqZ].
    + intros x1 x2 c _ _ H1 H2.
      apply list_elem_of_singleton in H1, H2. by simplify_eq.
    + intros x _. apply NoDup_singleton.
Qed.

Lemma isWall_setWall m x y w x' y' :
  isWall (setWall m x y w) x' y'
  = if decide ((x, y) = (x', y')) then w else isWall m x' y'.
Proof.
  unfold isWall, setWall; simpl. case_decide as H.
  - simplify_eq. rewrite lookup_insert_eq. by destruct w.
  - rewrite lookup_insert_ne; [done | by apply key_ne].
Qed.

Lemma isInBounds_setWall m x y w x' y' :
  isInBounds (setWall m x y w) x' y' = isInBounds m x' y'.
Proof. done. Qed.

Lemma allCells_setWall m x y w : allCells (setWall m x y w) = allCells m.
Proof. done. Qed.

Lemma elem_of_neighbours4 x y (n : Cell) :
  n ∈ neighbours4 x y ↔ adjacent (x, y) n.
Proof.
  unfold neighbours4, directions, adjacent. rewrite list_elem_of_fmap.
  destruct n as [nx ny]; simpl. split.
  - intros (d & Hn & Hd). simplify_eq.
    repeat (apply elem_of_cons in Hd as [->|Hd]; [simpl; lia|]).
    by apply elem_of_nil in Hd.
  - intros H.
    assert ((nx = x ∧ ny = y - 1) ∨ (nx = x + 1 ∧ ny = y)
            ∨ (nx = x ∧ ny = y + 1) ∨ (nx = x - 1 ∧ ny = y))
      as [[-> ->]|[[-> ->]|[[-> ->]|[-> ->]]]] by lia.
    + exists (0, -1). split; [f_equal; simpl; lia | set_solver].
    + exists (1, 0). split; [f_equal; simpl; lia | set_solver].
    + exists (0, 1). split; [f_equal; simpl; lia | set_solver].
    + exists (-1, 0). split; [f_equal; simpl; lia | set_solver].
Qed.

Lemma elem_of_getPassageNeighbors m x y (n : Cell) :
  n ∈ getPassageNeighbors m x y ↔ adjacent (x, y) n ∧ passage m n.
Proof.
  unfold getPassageNeighbors, passage.
  rewrite list_elem_of_filter, elem_of_neighbours4.
  destruct (isInBounds m n.1 n.2), (isWall m n.1 n.2); simpl;
    intuition congruence.
Qed.

Lemma elem_of_getWalledNeighbors m x y (n : Cell) :
  n ∈ getWalledNeighbors m x y
  ↔ adjacent (x, y) n ∧ isInBounds m n.1 n.2 = true ∧ isWall m n.1 n.2 = true.
Proof.
  unfold getWalledNeighbors.
  rewrite list_elem_of_filter, elem_of_neighbours4.
  destruct (isInBounds m n.1 n.2), (isWall m n.1 n.2); simpl;
    intuition congruence.
Qed.

Lemma adjacent_sym a b : adjacent a b → adjacent b a.
Proof. unfold adjacent. lia. Qed.

Lemma adjacent_ne a b : adjacent a b → a ≠ b.
Proof. unfold adjacent. intros H ->. lia. Qed.

(** ** Breadth-first search computes shortest walks *)

Section BFS.

Variable m : MazeGenerator.
Variable s : Cell.

Lemma bfsInv_init : bfsInv m s [(s, 0)] {[ckey s := 0]}.
Proof.
  split.
  - intros k d [<- <-]%lookup_singleton_Some. split; [lia|].
    exists s. split; [done | apply walk_here].
  - intros c d [= -> ->]%list_elem_of_singleton. apply lookup_singleton_eq.
  - repeat constructor.
  - intros k d e [_ <-]%lookup_singleton_Some ->%list_elem_of_singleton.
    simpl; lia.
  - intros c d [Hk <-]%lookup_singleton_Some. left.
    apply ckey_inj in Hk as <-. apply list_elem_of_singleton. done.
  - apply lookup_singleton_eq.
Qed.

Lemma bfsMid_enter v dv queue distances :
  bfsInv m s ((v, dv) :: queue) distances →
  bfsMid m s v dv (getPassageNeighbors m v.1 v.2) queue distances.
Proof.
  intros [Hsound Hqueue Hsorted Hlevel Hclosed Hsource].
  apply StronglySorted_cons in Hsorted as [Hhead Hsorted].
  rewrite Forall_forall in Hhead.
  split; try done.
  - intros c d Hin. apply Hqueue. by right.
  - apply Hqueue. by left.
  - intros [c d] Hin. split; [by apply Hhead|]. simpl.
    apply (Hlevel (ckey c) d (v, dv)); [|by left].
    apply Hqueue. by right.
  - intros k d Hk. apply (Hlevel k d (v, dv)); [done | by left].
  - intros c d Hc. destruct (Hclosed c d Hc) as [Hin|Hall].
    + apply elem_of_cons in Hin as [Heq|Hin]; [|by left].
      simplify_eq. right; left. split; [done|]. intros u Hu. by left.
    + by right; right.
Qed.

Lemma bfsMid_visit v dv u pending queue distances :
  u ∈ getPassageNeighbors m v.1 v.2 →
  bfsMid m s v dv (u :: pending) queue distances →
  bfsMid m s v dv pending
    (visit dv (queue, distances) u).1 (visit dv (queue, distances) u).2.
Proof.
  intros Hu [Hsound Hqueue Hcur Hsorted Hrange Hlevel Hclosed Hsource].
  unfold visit; simpl. destruct (distances !! ckey u) as [du|] eqn:Hdu; simpl.
  - split; try done.
    intros c d Hc. destruct (Hclosed c d Hc) as [Hin|[[-> Hall]|Hall]].
    + by left.
    + right; left. split; [done|]. intros u' Hu'.
      destruct (Hall u' Hu') as [[->|Hp]%elem_of_cons|Hv]; eauto.
    + by right; right.
  - assert (Hkeep : ∀ k d, distances !! k = Some d →
              <[ckey u := dv + 1]> distances !! k = Some d).
    { intros k d Hk. rewrite lookup_insert_ne; [done|]. congruence. }
    destruct (Hsound _ _ Hcur) as (Hdv & c0 & Hc0 & Hwalk).
    apply ckey_inj in Hc0 as <-.
    split.
    + intros k d Hk. apply lookup_insert_Some in Hk as [[<- <-]|[_ Hk]].
      * split; [lia|]. exists u. split; [done|].
        replace (Z.to_nat (dv + 1)) with (S (Z.to_nat dv)) by lia.
        by eapply walk_step.
      * by apply Hsound.
    + intros c d [Hin|Hin%list_elem_of_singleton]%elem_of_app.
      * by apply Hkeep, Hqueue.
      * simplify_eq. apply lookup_insert_eq.
    + by apply Hkeep.
    + apply StronglySorted_app_2; [|done|repeat constructor].
      intros e1 e2 He1 ->%list_elem_of_singleton.
      unfold queueOrder; simpl. apply Hrange in He1. lia.
    + intros e [Hin| ->%list_elem_of_singleton]%elem_of_app;
        [by apply Hrange | simpl; lia].
    + intros k d Hk. apply lookup_insert_Some in Hk as [[_ <-]|[_ Hk]];
        [lia | by eapply Hlevel].
    + intros c d Hc. apply lookup_insert_Some in Hc as [[Hk <-]|[_ Hc]].
      * apply ckey_inj in Hk as <-. left. apply elem_of_app. right.
        by apply list_elem_of_singleton.
      * destruct (Hclosed c d Hc) as [Hin|[[-> Hall]|Hall]].
        -- left. apply elem_of_app. by left.
        -- right; left. split; [done|]. intros u' Hu'.
           destruct (Hall u' Hu') as [[->|Hp]%elem_of_cons|[d' Hv]].
           ++ right. rewrite lookup_insert_eq. eauto.
           ++ by left.
           ++ right. exists d'. by apply Hkeep.
        -- right; right. intros u' Hu'.
           destruct (Hall u' Hu') as (d' & Hd' & Hle). eauto.
    + by apply Hkeep.
Qed.

Lemma bfsMid_visit_all v dv pending queue distances :
  (∀ u, u ∈ pending → u ∈ getPassageNeighbors m v.1 v.2) →
  bfsMid m s v dv pending queue distances →
  bfsMid m s v dv []
    (foldl (visit dv) (queue, distances) pending).1
    (foldl (visit dv) (queue, distances) pending).2.
Proof.
  revert queue distances.
  induction pending as [|u pending IH]; intros queue distances Hsub Hmid;
    [done|]. simpl.
  destruct (visit dv (queue, distances) u) as [queue' distances'] eqn:Hv.
  apply IH; [intros u' Hu'; apply Hsub; by right|].
  apply (bfsMid_visit v dv u) in Hmid; [|apply Hsub; by left].
  by rewrite Hv in Hmid.
Qed.

Lemma bfsMid_leave v dv queue distances :
  bfsMid m s v dv [] queue distances → bfsInv m s queue distances.
Proof.
  intros [Hsound Hqueue Hcur Hsorted Hrange Hlevel Hclosed Hsource].
  split; try done.
  - intros k d e Hk He. apply Hlevel in Hk. apply Hrange in He. lia.
  - intros c d Hc. destruct (Hclosed c d Hc) as [Hin|[[-> Hall]|Hall]].
    + by left.
    + right. intros u Hu. destruct (Hall u Hu) as [[]%elem_of_nil|[d' Hd']].
      exists d'. split; [done|]. apply Hlevel in Hd'.
      rewrite Hcur in Hc. simplify_eq. lia.
    + by right.
Qed.

(** One iteration of the [while] loop keeps the invariant. *)
Lemma bfsInv_step v dv queue distances :
  bfsInv m s ((v, dv) :: queue) distances →
  bfsInv m s (foldl (visit dv) (queue, distances) (getPassageNeighbors m v.1 v.2)).1
         (foldl (visit dv) (queue, distances) (getPassageNeighbors m v.1 v.2)).2.
Proof.
  intros Hinv. apply (bfsMid_leave v dv), bfsMid_visit_all; [done|].
  by apply bfsMid_enter.
Qed.

End BFS.

(** ** Termination of the search *)

Lemma length_filter_strict {A} (P1 P2 : A → Prop)
    `{!∀ x, Decision (P1 x), !∀ x, Decision (P2 x)} (l : list A) (x : A) :
  (∀ a, P2 a → P1 a) → x ∈ l → P1 x → ¬ P2 x →
  (length (filter P2 l) < length (filter P1 l))%nat.
Proof.
  intros Himp Hx H1 H2. rewrite <-(list_filter_filter_l P2 P1 l Himp).
  apply (length_filter_lt _ _ x); [|done].
  apply list_elem_of_filter. done.
Qed.

Lemma visit_measure m dv queue distances u :
  u ∈ allCells m →
  (length (unvisited m (visit dv (queue, distances) u).2)
   + length (visit dv (queue, distances) u).1
   ≤ length (unvisited m distances) + length queue)%nat.
Proof.
  intros Hu. unfold visit; simpl.
  destruct (distances !! ckey u) eqn:Hdu; simpl; [lia|].
  rewrite length_app; simpl.
  assert (length (unvisited m (<[ckey u := (dv + 1)%Z]> distances))
          < length (unvisited m distances))%nat; [|lia].
  apply (length_filter_strict _ _ _ u); try done.
  - intros a Ha. apply lookup_insert_None in Ha. tauto.
  - by rewrite lookup_insert_eq.
Qed.

Lemma visit_all_measure m dv pending queue distances :
  (∀ u, u ∈ pending → u ∈ allCells m) →
  (length (unvisited m (foldl (visit dv) (queue, distances) pending).2)
   + length (foldl (visit dv) (queue, distances) pending).1
   ≤ length (unvisited m distances) + length queue)%nat.
Proof.
  revert queue distances.
  induction pending as [|u pending IH]; intros queue distances Hsub; [done|].
  simpl. destruct (visit dv (queue, distances) u) as [queue' distances'] eqn:Hv.
  etrans; [apply IH; intros u' Hu'; apply Hsub; by right|].
  pose proof (visit_measure m dv queue distances u) as Hm.
  rewrite Hv in Hm. apply Hm, Hsub. by left.
Qed.

Lemma getPassageNeighbors_allCells m x y u :
  u ∈ getPassageNeighbors m x y → u ∈ allCells m.
Proof.
  intros [_ [Hb _]]%elem_of_getPassageNeighbors. by apply elem_of_allCells.
Qed.

(** With a budget of at least the number of unvisited cells plus the
    length of the queue, the loop ends, in a state that satisfies the
    invariant with an empty queue. *)
Lemma bfsLoop_terminates m s fuel queue distances :
  bfsInv m s queue distances →
  (length (unvisited m distances) + length queue ≤ fuel)%nat →
  ∃ result, bfsLoop fuel m queue distances = Some result ∧ bfsInv m s [] result.
Proof.
  revert queue distances.
  induction fuel as [|fuel IH]; intros queue distances Hinv Hfuel.
  - destruct queue; [by eexists | simpl in Hfuel; lia].
  - destruct queue as [|[v dv] queue]; [by eexists|]. simpl.
    apply IH; [by apply bfsInv_step|].
    pose proof (visit_all_measure m dv (getPassageNeighbors m v.1 v.2)
                  queue distances) as Hm.
    simpl in Hfuel.
    etrans; [apply Hm; intros u; apply getPassageNeighbors_allCells|]. lia.
Qed.

(** [calculateDistances] always returns, and what it returns is closed
    under [getPassageNeighbors]. *)
Lemma calculateDistances_total m x y :
  ∃ distances, calculateDistances m x y = Some distances
               ∧ bfsInv m (x, y) [] distances.
Proof.
  unfold calculateDistances. apply bfsLoop_terminates.
  - apply (bfsInv_init m (x, y)).
  - pose proof (length_filter (λ c : Cell, ({[key x y := 0]} : gmap string Z) !! ckey c = None)
                  (allCells m)).
    unfold unvisited. simpl. lia.
Qed.

Lemma bfsInv_complete m s distances :
  bfsInv m s [] distances →
  ∀ c n, walk m s c n → ∃ d, distances !! ckey c = Some d ∧ d ≤ Z.of_nat n.
Proof.
  intros Hinv c n Hwalk. induction Hwalk as [|c n c' _ (d & Hd & Hle) Hstep].
  - exists 0. split; [apply (inv_source _ _ _ _ Hinv) | lia].
  - destruct (inv_closed _ _ _ _ Hinv c d Hd) as [[]%elem_of_nil|Hall].
    destruct (Hall c' Hstep) as (d' & Hd' & Hle'). exists d'. split; [done|lia].
Qed.

Lemma walk_passagePath m s c n :
  passage m s → walk m s c n ↔ passagePath m s c n.
Proof.
  intros Hs. split.
  - induction 1 as [|c n c' _ IH Hstep]; [by constructor|].
    apply elem_of_getPassageNeighbors in Hstep as [Hadj Hp].
    eapply path_extend; [done| |done]. by destruct c.
  - induction 1 as [|c n c' _ IH Hadj Hp]; [by constructor|].
    eapply walk_step; [done|]. apply elem_of_getPassageNeighbors.
    split; [by destruct c | done].
Qed.

(** When the queue is empty, the map holds exactly the cells that a
    passage path reaches from a passage source, with the length of a
    shortest one. *)
Lemma bfsInv_keys m s distances :
  passage m s → bfsInv m s [] distances →
  ∀ k, is_Some (distances !! k) ↔ ∃ c n, k = ckey c ∧ passagePath m s c n.
Proof.
  intros Hs Hinv k. split.
  - intros [d Hd]. destruct (inv_sound _ _ _ _ Hinv k d Hd) as (_ & c & -> & Hw).
    exists c, (Z.to_nat d). split; [done | by apply walk_passagePath].
  - intros (c & n & -> & Hp). apply walk_passagePath in Hp; [|done].
    destruct (bfsInv_complete _ _ _ Hinv c n Hp) as (d & Hd & _). by exists d.
Qed.

Lemma bfsInv_values m s distances :
  passage m s → bfsInv m s [] distances →
  ∀ c d, distances !! ckey c = Some d →
    0 ≤ d
    ∧ passagePath m s c (Z.to_nat d)
    ∧ ∀ n, passagePath m s c n → (Z.to_nat d ≤ n)%nat.
Proof.
  intros Hs Hinv c d Hd.
  destruct (inv_sound _ _ _ _ Hinv _ d Hd) as (Hpos & c' & Hk & Hw).
  apply ckey_inj in Hk as <-. split; [done|]. split.
  - by apply walk_passagePath.
  - intros n Hp. apply walk_passagePath in Hp; [|done].
    destruct (bfsInv_complete _ _ _ Hinv c n Hp) as (d' & Hd' & Hle).
    simplify_eq. lia.
Qed.

(** C3.  For every grid and every source cell that is a passage cell of
    the grid, [calculateDistances] returns a map whose keys are exactly the
    keys of the cells reachable from the source through orthogonally
    adjacent in-bounds passage cells (the source included), and the value
    at each key is the number of hops of a shortest such path. *)
Theorem calculateDistances_shortest_paths (m : MazeGenerator) (x y : Z) :
  passage m (x, y) →
  ∃ distances,
    calculateDistances m x y = Some distances
    ∧ (∀ k, is_Some (distances !! k)
            ↔ ∃ c n, k = ckey c ∧ passagePath m (x, y) c n)
    ∧ (∀ c d, distances !! ckey c = Some d →
         0 ≤ d
         ∧ passagePath m (x, y) c (Z.to_nat d)
         ∧ ∀ n, passagePath m (x, y) c n → (Z.to_nat d ≤ n)%nat).
Proof.
  intros Hs.
  destruct (calculateDistances_total m x y) as (distances & Hcalc & Hinv).
  exists distances. split; [done|].
  split; [by apply bfsInv_keys | by apply bfsInv_values].
Qed.

(** ** Braiding only carves walls next to dead ends *)

Lemma elem_of_findAllDeadEnds m c : c ∈ findAllDeadEnds m ↔ deadEnd m c.
Proof.
  unfold findAllDeadEnds, deadEnd, passage, isDeadEnd.
  rewrite list_elem_of_filter, elem_of_allCells.
  destruct (isWall m c.1 c.2); simpl.
  - intuition congruence.
  - rewrite Is_true_true, Nat.eqb_eq. tauto.
Qed.

Lemma carvedFrom_refl m : carvedFrom m m.
Proof. repeat split; auto. Qed.

Lemma carvedFrom_isInBounds m0 m x y :
  carvedFrom m0 m → isInBounds m x y = isInBounds m0 x y.
Proof. intros (Hw & Hh & _). unfold isInBounds. by rewrite Hw, Hh. Qed.

Lemma carvedFrom_isWall m0 m x y :
  carvedFrom m0 m → isWall m0 x y = false → isWall m x y = false.
Proof.
  intros (_ & _ & _ & _ & _ & Hmaze). unfold isWall.
  destruct (Hmaze (key x y)) as [->|[-> _]]; done.
Qed.

Lemma carvedFrom_passage m0 m c :
  carvedFrom m0 m → passage m0 c → passage m c.
Proof.
  intros Hc [Hb Hw]. split.
  - by rewrite (carvedFrom_isInBounds m0).
  - by apply (carvedFrom_isWall m0).
Qed.

Lemma carvedFrom_carve m0 m cell target :
  carvedFrom m0 m → deadEnd m0 cell →
  target ∈ getWalledNeighbors m cell.1 cell.2 →
  carvedFrom m0 (setWall m target.1 target.2 false).
Proof.
  intros Hc Hdead (Hadj & Hb & Hw)%elem_of_getWalledNeighbors.
  pose proof Hc as (? & ? & ? & ? & ? & Hmaze).
  repeat split; try done. intros k. simpl.
  destruct (decide (key target.1 target.2 = k)) as [<-|Hne].
  - right. rewrite lookup_insert_eq. split; [done|].
    exists target, cell. split; [done|].
    rewrite <-(carvedFrom_isInBounds m0 m) by done. split; [done|].
    split; [|split; [done | by destruct cell]].
    destruct (isWall m0 target.1 target.2) eqn:Hw0; [done|].
    apply (carvedFrom_isWall m0 m) in Hw0; [congruence | done].
  - rewrite lookup_insert_ne by done. apply Hmaze.
Qed.

(** One step of the [forEach]: the grid is left alone, or one walled
    neighbour of the dead end (in the grid as it is then) is carved. *)
Lemma braidCell_cases percentage draws m k cell m' k' :
  braidCell percentage draws (m, k) cell = Some (m', k') →
  m' = m
  ∨ ∃ target, target ∈ getWalledNeighbors m cell.1 cell.2
              ∧ m' = setWall m target.1 target.2 false.
Proof.
  unfold braidCell.
  destruct (Qltb _ _); [|intros [= <- _]; by left].
  destruct (0 <? _)%nat; [|intros [= <- _]; by left].
  destruct (0 <=? _); [|done].
  destruct (_ !! _) as [target|] eqn:Ht; [|done].
  intros [= <- _]. right. exists target. split; [|done].
  by eapply list_elem_of_lookup_2.
Qed.

Lemma braidCell_carvedFrom m0 percentage draws m k cell m' k' :
  carvedFrom m0 m → deadEnd m0 cell →
  braidCell percentage draws (m, k) cell = Some (m', k') →
  carvedFrom m0 m'.
Proof.
  intros Hc Hdead [->|(target & Ht & ->)]%braidCell_cases; [done|].
  by eapply carvedFrom_carve.
Qed.

Lemma braidLoop_carvedFrom m0 percentage draws deadEnds m k m' k' :
  carvedFrom m0 m → (∀ c, c ∈ deadEnds → deadEnd m0 c) →
  braidLoop percentage draws deadEnds (m, k) = Some (m', k') →
  carvedFrom m0 m'.
Proof.
  revert m k.
  induction deadEnds as [|cell rest IH]; intros m k Hc Hdead; cbn [braidLoop].
  - by intros [= <- _].
  - destruct (braidCell percentage draws (m, k) cell) as [[m1 k1]|] eqn:Hcell;
      [|done].
    apply IH; [|intros c Hin; apply Hdead; by right].
    eapply braidCell_carvedFrom; [done| |done]. apply Hdead. by left.
Qed.

(** With draws in [[0, 1)], the index drawn is inside the array, so no
    step of the loop throws. *)
Lemma draw_index_in_range (r : Q) (n : nat) :
  (0 <= r)%Q → (r < 1)%Q → (0 < n)%nat →
  0 ≤ Qfloor (r * inject_Z (Z.of_nat n)) < Z.of_nat n.
Proof.
  intros H0 H1 Hn.
  assert (0 < inject_Z (Z.of_nat n))%Q as Hpos.
  { rewrite <-(Zlt_Qlt 0). lia. }
  split.
  - change 0 with (Qfloor 0). apply Qfloor_resp_le.
    apply Qmult_le_0_compat; [done | by apply Qlt_le_weak].
  - rewrite Zlt_Qlt. eapply Qle_lt_trans; [apply Qfloor_le|].
    rewrite <-(Qmult_1_l (inject_Z (Z.of_nat n))) at 2.
    by apply Qmult_lt_compat_r.
Qed.

Lemma braidCell_total percentage draws st cell :
  validDraws draws → is_Some (braidCell percentage draws st cell).
Proof.
  intros Hdraws. destruct st as [m k]. unfold braidCell.
  destruct (Qltb _ _); [|done].
  destruct (0 <? _)%nat eqn:Hlen; [|done].
  apply Nat.ltb_lt in Hlen.
  destruct (Hdraws (S k)) as [H0 H1].
  pose proof (draw_index_in_range _ _ H0 H1 Hlen) as [Hlo Hhi].
  set (i := Qfloor _) in *. clearbody i.
  destruct (0 <=? i) eqn:Hle; [|lia].
  destruct (_ !! _) eqn:Hlook; [done|].
  apply lookup_ge_None in Hlook. lia.
Qed.

Lemma braidLoop_total percentage draws deadEnds st :
  validDraws draws → is_Some (braidLoop percentage draws deadEnds st).
Proof.
  intros Hdraws. revert st.
  induction deadEnds as [|cell rest IH]; intros st; cbn [braidLoop].
  - done.
  - destruct (braidCell_total percentage draws st cell Hdraws) as [st' ->].
    apply IH.
Qed.

Lemma braid_total percentage draws m :
  validDraws draws → is_Some (braid percentage draws m).
Proof.
  intros Hdraws. unfold braid. destruct (Qle_bool _ _); [done|].
  destruct (braidLoop_total percentage draws (findAllDeadEnds m) (m, 0%nat) Hdraws)
    as [st ->]. done.
Qed.

Lemma braid_carvedFrom percentage draws m m' :
  braid percentage draws m = Some m' → carvedFrom m m'.
Proof.
  unfold braid. destruct (Qle_bool _ _).
  - intros [= <-]. apply carvedFrom_refl.
  - destruct (braidLoop _ _ _ _) as [[m1 k1]|] eqn:Hloop; [|done].
    intros [= <-]. eapply braidLoop_carvedFrom; [apply carvedFrom_refl| |done].
    intros c. apply elem_of_findAllDeadEnds.
Qed.

(** ** Paths and connectivity *)

Lemma passagePath_mono m m' a b n :
  (∀ c, passage m c → passage m' c) →
  passagePath m a b n → passagePath m' a b n.
Proof.
  intros Hsub. induction 1 as [Ha|c n c' _ IH Hadj Hc'].
  - apply path_start. by apply Hsub.
  - eapply path_extend; [done..|]. by apply Hsub.
Qed.

Lemma passagePath_prepend m a b c n :
  passage m a → adjacent a b → passagePath m b c n → passagePath m a c (S n).
Proof.
  intros Ha Hab. induction 1 as [Hb|c n c' _ IH Hadj Hc'].
  - eapply path_extend; [by apply path_start|done..].
  - eapply path_extend; done.
Qed.

Lemma passagePath_source m a b n : passagePath m a b n → passage m a.
Proof. by induction 1. Qed.

Lemma passagePath_sym m a b n : passagePath m a b n → passagePath m b a n.
Proof.
  induction 1 as [Ha|c n c' _ IH Hadj Hc']; [by apply path_start|].
  eapply passagePath_prepend; [done|by apply adjacent_sym|done].
Qed.

Lemma passagePath_trans m a b c n k :
  passagePath m a b n → passagePath m b c k → passagePath m a c (k + n).
Proof.
  intros Hab. induction 1 as [Hb|c k c' _ IH Hadj Hc']; [done|].
  simpl. eapply path_extend; done.
Qed.

Lemma passage_setWall_false m x y c :
  passage m c → passage (setWall m x y false) c.
Proof.
  intros [Hb Hw]. split; [done|]. rewrite isWall_setWall. by case_decide.
Qed.

Lemma passage_setWall_false_inv m x y c :
  passage (setWall m x y false) c → c = (x, y) ∨ passage m c.
Proof.
  intros [Hb Hw]. rewrite isWall_setWall in Hw.
  case_decide as Heq; [left; by destruct c; simplify_eq/=|by right].
Qed.

(** Carving a cell of the grid next to a passage cell keeps the passages
    connected. *)
Lemma carve_connected m cell target :
  fullyConnected m → passage m cell → adjacent cell target →
  isInBounds m target.1 target.2 = true →
  fullyConnected (setWall m target.1 target.2 false).
Proof.
  intros Hconn Hcell Hadj Hb.
  set (m' := setWall m target.1 target.2 false).
  assert (Htarget : passage m' target).
  { split; [done|]. unfold m'. rewrite isWall_setWall. by case_decide. }
  assert (Hto : ∀ p, passage m' p → ∃ n, passagePath m' cell p n).
  { intros p Hp. apply passage_setWall_false_inv in Hp as [Heq|Hp].
    - exists 1%nat. replace p with target by (destruct target; done).
      eapply path_extend; [apply path_start|done..].
      by apply passage_setWall_false.
    - destruct (Hconn cell p Hcell Hp) as [n Hn]. exists n.
      eapply passagePath_mono; [|done]. intros c. apply passage_setWall_false. }
  intros a b Ha Hb'. destruct (Hto a Ha) as [n Hn], (Hto b Hb') as [k Hk].
  exists (k + n)%nat. eapply passagePath_trans; [by apply passagePath_sym|done].
Qed.

Lemma braidCell_connected m0 percentage draws m k cell m' k' :
  carvedFrom m0 m → deadEnd m0 cell → fullyConnected m →
  braidCell percentage draws (m, k) cell = Some (m', k') →
  fullyConnected m'.
Proof.
  intros Hc [Hcell _] Hconn [->|(target & Ht & ->)]%braidCell_cases; [done|].
  apply elem_of_getWalledNeighbors in Ht as (Hadj & Hb & _).
  eapply carve_connected; [done| |by destruct cell|done].
  by eapply carvedFrom_passage.
Qed.

Lemma braidLoop_connected m0 percentage draws deadEnds m k m' k' :
  carvedFrom m0 m → (∀ c, c ∈ deadEnds → deadEnd m0 c) → fullyConnected m →
  braidLoop percentage draws deadEnds (m, k) = Some (m', k') →
  fullyConnected m'.
Proof.
  revert m k.
  induction deadEnds as [|cell rest IH]; intros m k Hc Hdead Hconn;
    cbn [braidLoop].
  - by intros [= <- _].
  - destruct (braidCell percentage draws (m, k) cell) as [[m1 k1]|] eqn:Hcell;
      [|done].
    assert (deadEnd m0 cell) by (apply Hdead; by left).
    apply IH; [|intros c Hin; apply Hdead; by right|].
    + by eapply braidCell_carvedFrom.
    + by eapply braidCell_connected.
Qed.

Lemma braid_connected percentage draws m m' :
  braid percentage draws m = Some m' → fullyConnected m → fullyConnected m'.
Proof.
  unfold braid. destruct (Qle_bool _ _); [by intros [= <-]|].
  destruct (braidLoop _ _ _ _) as [[m1 k1]|] eqn:Hloop; [|done].
  intros [= <-] Hconn.
  eapply braidLoop_connected; [apply carvedFrom_refl| |done..].
  intros c. apply elem_of_findAllDeadEnds.
Qed.

Lemma carvedFrom_allCells m0 m : carvedFrom m0 m → allCells m = allCells m0.
Proof. intros (Hw & Hh & _). unfold allCells. by rewrite Hw, Hh. Qed.

Lemma length_filter_mono {A} (P1 P2 : A → Prop)
    `{!∀ x, Decision (P1 x), !∀ x, Decision (P2 x)} (l : list A) :
  (∀ a, P1 a → P2 a) → (length (filter P1 l) ≤ length (filter P2 l))%nat.
Proof.
  intros Himp. rewrite <-(list_filter_filter_l P1 P2 l Himp).
  apply length_filter.
Qed.

Lemma carvedFrom_walkable m0 m c :
  carvedFrom m0 m → c ∈ getWalkablePositions m0 → c ∈ getWalkablePositions m.
Proof.
  intros Hc. unfold getWalkablePositions.
  rewrite (carvedFrom_allCells m0 m Hc), !list_elem_of_filter.
  intros [Hw Hin]. split; [|done].
  destruct (isWall m0 c.1 c.2) eqn:Hw0; [done|].
  by rewrite (carvedFrom_isWall m0 m _ _ Hc Hw0).
Qed.

Lemma carvedFrom_walkable_count m0 m :
  carvedFrom m0 m →
  (length (getWalkablePositions m0) ≤ length (getWalkablePositions m))%nat.
Proof.
  intros Hc. unfold getWalkablePositions.
  rewrite (carvedFrom_allCells m0 m Hc). apply length_filter_mono.
  intros c Hw. destruct (isWall m0 c.1 c.2) eqn:Hw0; [done|].
  by rewrite (carvedFrom_isWall m0 m _ _ Hc Hw0).
Qed.

(** C2.  Whatever the grid, the percentage and the random draws, [braid]
    returns, no cell that was a passage is a wall afterwards (so the
    walkable cells are kept and their number does not decrease), and if
    every passage cell was reachable from every other one before, the
    same holds afterwards. *)
Theorem braid_keeps_passages_connected
    (percentage : Q) (draws : nat → Q) (m : MazeGenerator) :
  validDraws draws →
  ∃ m', braid percentage draws m = Some m'
    ∧ (∀ x y, isWall m x y = false → isWall m' x y = false)
    ∧ (∀ c, c ∈ getWalkablePositions m → c ∈ getWalkablePositions m')
    ∧ (length (getWalkablePositions m) ≤ length (getWalkablePositions m'))%nat
    ∧ (fullyConnected m → fullyConnected m').
Proof.
  intros Hdraws. destruct (braid_total percentage draws m Hdraws) as [m' Hm'].
  exists m'. pose proof (braid_carvedFrom _ _ _ _ Hm') as Hc.
  split; [done|]. split; [|split; [|split]].
  - intros x y. by apply carvedFrom_isWall.
  - intros c. by apply carvedFrom_walkable.
  - by apply carvedFrom_walkable_count.
  - by apply (braid_connected percentage draws).
Qed.

(** C6.  With a percentage of 0 or less, [braid] returns the generator
    object as it was: same cells, same dimensions, same start and exit. *)
Theorem braid_nonpositive_identity
    (percentage : Q) (draws : nat → Q) (m : MazeGenerator) :
  (percentage <= 0)%Q → braid percentage draws m = Some m.
Proof.
  intros Hp. unfold braid. apply Qle_bool_iff in Hp. by rewrite Hp.
Qed.

(** C9.  Whatever the grid, the percentage and the random draws, the only
    cells whose state [braid] changes were walls of the grid before the
    call, inside the bounds, orthogonally adjacent to a dead end of the
    grid before the call; every other entry of the map, the dimensions and
    the start and exit positions are as before. *)
Theorem braid_frame (percentage : Q) (draws : nat → Q) (m : MazeGenerator) :
  validDraws draws →
  ∃ m', braid percentage draws m = Some m'
    ∧ width m' = width m ∧ height m' = height m
    ∧ startPos m' = startPos m ∧ exitPos m' = exitPos m
    ∧ (∀ k, maze m' !! k ≠ maze m !! k →
         ∃ t, k = ckey t ∧ maze m' !! k = Some false
              ∧ isInBounds m t.1 t.2 = true ∧ isWall m t.1 t.2 = true
              ∧ ∃ d, deadEnd m d ∧ adjacent d t)
    ∧ (∀ x y, isWall m' x y ≠ isWall m x y →
         isWall m' x y = false
         ∧ isInBounds m x y = true ∧ isWall m x y = true
         ∧ ∃ d, deadEnd m d ∧ adjacent d (x, y)).
Proof.
  intros Hdraws. destruct (braid_total percentage draws m Hdraws) as [m' Hm'].
  exists m'.
  pose proof (braid_carvedFrom _ _ _ _ Hm') as (Hw & Hh & _ & Hs & He & Hmaze).
  repeat (split; [done|]). split.
  - intros k Hne. destruct (Hmaze k) as [Heq|(Hk & t & d & -> & Hb & Hwall & Hd & Ha)];
      [done|]. exists t. eauto 10.
  - intros x y Hne.
    destruct (Hmaze (key x y)) as [Heq|(Hk & t & d & Ht & Hb & Hwall & Hd & Ha)].
    + exfalso. apply Hne. unfold isWall. by rewrite Heq.
    + change (key x y) with (ckey (x, y)) in Ht. apply ckey_inj in Ht as <-.
      split; [unfold isWall; by rewrite Hk|]. eauto.
Qed.

(** ** Endpoint selection: the enumeration of pairs *)

Lemma selectLoop_foldl m cells best :
  selectLoop m cells best = Some (foldl (pick m) best (orderedPairs cells)).
Proof.
  revert best. induction cells as [|bi rest IH]; intros best; [done|].
  cbn [selectLoop orderedPairs].
  destruct (calculateDistances_total m bi.1 bi.2) as (distances & Hcalc & _).
  rewrite Hcalc; simpl. rewrite IH, foldl_app, foldl_fmap. do 2 f_equal.
  clear IH. revert best. induction rest as [|bj rest IH]; intros best; [done|].
  simpl. rewrite <-IH. f_equal.
  unfold pick, selectInner, bfsDistance; simpl. by rewrite Hcalc.
Qed.

(** The fold keeps the first pair that reaches the largest distance above
    the initial one. *)
Lemma foldl_pick_first_max m (ps : list (Cell * Cell)) (best : Best) :
  let r := foldl (pick m) best ps in
  (∀ p d, p ∈ ps → bfsDistance m p.1 p.2 = Some d → d ≤ r.1.1)
  ∧ ((r = best
      ∧ ∀ p d, p ∈ ps → bfsDistance m p.1 p.2 = Some d → d ≤ best.1.1)
     ∨ ∃ t, ps !! t = Some (r.1.2, r.2)
            ∧ bfsDistance m r.1.2 r.2 = Some r.1.1
            ∧ best.1.1 < r.1.1
            ∧ ∀ t' p d, (t' < t)%nat → ps !! t' = Some p →
                bfsDistance m p.1 p.2 = Some d → d < r.1.1).
Proof.
  induction ps as [|p ps IH] using rev_ind; simpl.
  - split; [by intros p d []%elem_of_nil|]. left. split; [done|].
    by intros p d []%elem_of_nil.
  - rewrite foldl_snoc. set (r := foldl (pick m) best ps) in *. clearbody r.
    destruct IH as [Hmax Hfirst]. unfold pick.
    destruct (bfsDistance m p.1 p.2) as [dp|] eqn:Hdp.
    + destruct (r.1.1 <? dp) eqn:Hlt; simpl.
      * apply Z.ltb_lt in Hlt. split.
        { intros q d [Hq| ->%list_elem_of_singleton]%elem_of_app Hd.
          - specialize (Hmax q d Hq Hd). lia.
          - simplify_eq. lia. }
        right. exists (length ps). rewrite <-surjective_pairing.
        split; [by apply list_lookup_middle|]. split; [done|]. split.
        { destruct Hfirst as [[-> _]|(t & _ & _ & Hb & _)]; lia. }
        intros t' q d Ht' Hq Hd. rewrite lookup_app_l in Hq by done.
        apply list_elem_of_lookup_2 in Hq. specialize (Hmax q d Hq Hd). lia.
      * apply Z.ltb_ge in Hlt. split.
        { intros q d [Hq| ->%list_elem_of_singleton]%elem_of_app Hd.
          - by apply (Hmax q).
          - simplify_eq. lia. }
        destruct Hfirst as [[Hr Hall]|(t & Ht & Hd & Hb & Hbefore)].
        -- left. split; [done|].
           intros q d [Hq| ->%list_elem_of_singleton]%elem_of_app Hd.
           ++ by eapply Hall.
           ++ assert (d = dp) as -> by congruence. rewrite Hr in Hlt. lia.
        -- right. exists t. split; [by apply lookup_app_l_Some|].
           split; [done|]. split; [done|].
           intros t' q d Ht' Hq Hq'. eapply (Hbefore t'); [done| |done].
           apply lookup_lt_Some in Ht. by rewrite lookup_app_l in Hq by lia.
    + split.
      { intros q d [Hq| ->%list_elem_of_singleton]%elem_of_app Hd.
        - by apply (Hmax q).
        - congruence. }
      destruct Hfirst as [[Hr Hall]|(t & Ht & Hd & Hb & Hbefore)].
      -- left. split; [done|].
         intros q d [Hq| ->%list_elem_of_singleton]%elem_of_app Hd.
         ++ by eapply Hall.
         ++ congruence.
      -- right. exists t. split; [by apply lookup_app_l_Some|].
         split; [done|]. split; [done|].
         intros t' q d Ht' Hq Hq'. eapply (Hbefore t'); [done| |done].
         apply lookup_lt_Some in Ht. by rewrite lookup_app_l in Hq by lia.
Qed.

(** Positions in [orderedPairs l] against positions in [l]. *)
Lemma orderedPairs_elem (l : list Cell) (i j : nat) (a b : Cell) :
  (i < j)%nat → l !! i = Some a → l !! j = Some b → (a, b) ∈ orderedPairs l.
Proof.
  revert i j. induction l as [|x rest IH]; intros i j Hij Hi Hj; [done|].
  cbn [orderedPairs]. apply elem_of_app. destruct i as [|i].
  - left. destruct j as [|j]; [lia|]. simpl in *. simplify_eq.
    apply list_elem_of_fmap. exists b. split; [done|].
    by eapply list_elem_of_lookup_2.
  - right. destruct j as [|j]; [lia|]. simpl in *.
    apply (IH i j); [lia|done..].
Qed.

Lemma orderedPairs_index (l : list Cell) (t : nat) (a b : Cell) :
  orderedPairs l !! t = Some (a, b) →
  ∃ i j, (i < j)%nat ∧ l !! i = Some a ∧ l !! j = Some b
    ∧ ∀ i' j' a' b',
        (i' < j')%nat → l !! i' = Some a' → l !! j' = Some b' →
        (i' < i ∨ (i' = i ∧ j' < j))%nat →
        ∃ t', (t' < t)%nat ∧ orderedPairs l !! t' = Some (a', b').
Proof.
  revert t. induction l as [|x rest IH]; intros t Ht; [done|].
  cbn [orderedPairs] in *. apply lookup_app_Some in Ht as [Ht|[Hlen Ht]].
  - apply list_lookup_fmap_Some in Ht as (b0 & [= -> ->] & Hb).
    exists 0%nat, (S t). split; [lia|]. split; [done|]. split; [done|].
    intros i' j' a' b' Hij Hi Hj [Hlt|[-> Hlt]]; [lia|].
    destruct j' as [|j']; [lia|]. simpl in *. simplify_eq.
    exists j'. split; [lia|]. apply lookup_app_l_Some.
    apply list_lookup_fmap_Some. eauto.
  - rewrite length_fmap in Hlen, Ht.
    destruct (IH _ Ht) as (i & j & Hij & Hi & Hj & Hbefore).
    exists (S i), (S j). split; [lia|]. split; [done|]. split; [done|].
    intros i' j' a' b' Hij' Hi' Hj' Hlex.
    destruct j' as [|j']; [lia|]. destruct i' as [|i']; simpl in *.
    + simplify_eq. exists j'. pose proof (lookup_lt_Some _ _ _ Hj') as Hlt.
      split; [lia|]. apply lookup_app_l_Some.
      apply list_lookup_fmap_Some. by exists b'.
    + destruct (Hbefore i' j' a' b') as (t' & Ht' & Hp); [lia|done|done|lia|].
      exists (length rest + t')%nat. split; [lia|].
      rewrite lookup_app_r; rewrite length_fmap; [|lia].
      by replace (length rest + t' - length rest)%nat with t' by lia.
Qed.

(** ** Endpoint selection: border cells and the selected pair *)

Lemma elem_of_borderCells m (c : Cell) :
  c ∈ borderCells m ↔ passage m c ∧ nearBorder m c.1 c.2 = true.
Proof.
  unfold borderCells, passage. rewrite list_elem_of_filter, elem_of_allCells.
  destruct (isWall m c.1 c.2), (nearBorder m c.1 c.2); simpl;
    intuition congruence.
Qed.

Lemma NoDup_borderCells m : NoDup (borderCells m).
Proof. apply NoDup_filter, NoDup_allCells. Qed.

Lemma walk_zero m s c : walk m s c 0 → c = s.
Proof. by inversion 1. Qed.

Lemma bfsDistance_Some m (a b : Cell) (d : Z) :
  passage m a →
  bfsDistance m a b = Some d
  ↔ 0 ≤ d ∧ passagePath m a b (Z.to_nat d)
    ∧ ∀ n, passagePath m a b n → (Z.to_nat d ≤ n)%nat.
Proof.
  intros Ha. destruct a as [ax ay].
  destruct (calculateDistances_total m ax ay) as (distances & Hcalc & Hinv).
  pose proof (bfsInv_keys _ _ _ Ha Hinv) as Hkeys.
  pose proof (bfsInv_values _ _ _ Ha Hinv) as Hvals.
  unfold bfsDistance; simpl. rewrite Hcalc; simpl. split; [apply Hvals|].
  intros (Hd & Hpath & Hmin).
  destruct (proj2 (Hkeys (ckey b))) as [d' Hd']; [by eauto|].
  destruct (Hvals b d' Hd') as (Hd'0 & Hpath' & Hmin').
  specialize (Hmin _ Hpath'). specialize (Hmin' _ Hpath).
  rewrite Hd'. f_equal. lia.
Qed.

(** The breadth-first distance does not depend on the direction. *)
Lemma bfsDistance_sym m (a b : Cell) :
  passage m a → passage m b → bfsDistance m a b = bfsDistance m b a.
Proof.
  assert (Hhalf : ∀ a b d, passage m a → passage m b →
            bfsDistance m a b = Some d → bfsDistance m b a = Some d).
  { clear a b. intros a b d Ha Hb (Hd & Hpath & Hmin)%bfsDistance_Some; [|done].
    apply bfsDistance_Some; [done|]. split; [done|].
    split; [by apply passagePath_sym|].
    intros n Hn. by apply Hmin, passagePath_sym. }
  intros Ha Hb.
  destruct (bfsDistance m a b) as [d|] eqn:Hab.
  - symmetry. by apply Hhalf.
  - destruct (bfsDistance m b a) as [d|] eqn:Hba; [|done].
    apply Hhalf in Hba; [congruence|done..].
Qed.

Lemma bfsDistance_distinct m (a b : Cell) (d : Z) :
  passage m a → a ≠ b → bfsDistance m a b = Some d → 1 ≤ d.
Proof.
  intros Ha Hne (Hd & Hpath & _)%bfsDistance_Some; [|done].
  destruct (decide (d = 0)) as [->|]; [|lia].
  apply walk_passagePath in Hpath; [|done].
  apply walk_zero in Hpath. congruence.
Qed.

Lemma setStartAndExit_fallback m :
  (length (borderCells m) < 2)%nat →
  setStartAndExit m = Some (setEndpoints m (1, 1) (width m - 2, height m - 2)).
Proof.
  unfold setStartAndExit. destruct (borderCells m) as [|b0 [|b1 rest]]; simpl;
    [done..|lia].
Qed.

Lemma setStartAndExit_normal m b0 b1 rest :
  borderCells m = b0 :: b1 :: rest →
  setStartAndExit m
  = Some (if coordSum (winner m b0 b1).1.2 <? coordSum (winner m b0 b1).2
          then setEndpoints m (winner m b0 b1).1.2 (winner m b0 b1).2
          else setEndpoints m (winner m b0 b1).2 (winner m b0 b1).1.2).
Proof.
  intros Hbc. unfold setStartAndExit, winner. rewrite Hbc at 1.
  rewrite selectLoop_foldl; simpl. unfold coordSum. by case_match.
Qed.

(** The winning pair is a pair of border cells [i0 < j0]; no pair has a
    larger distance, and the pairs met before it have a smaller one. *)
Lemma winner_first_longest m b0 b1 rest :
  borderCells m = b0 :: b1 :: rest →
  ∃ i0 j0, (i0 < j0)%nat
    ∧ borderCells m !! i0 = Some (winner m b0 b1).1.2
    ∧ borderCells m !! j0 = Some (winner m b0 b1).2
    ∧ ∀ i j bi bj d,
        (i < j)%nat → borderCells m !! i = Some bi →
        borderCells m !! j = Some bj → bfsDistance m bi bj = Some d →
        bfsDistance m (winner m b0 b1).1.2 (winner m b0 b1).2
        = Some (winner m b0 b1).1.1
        ∧ d ≤ (winner m b0 b1).1.1
        ∧ ((i < i0 ∨ (i = i0 ∧ j < j0))%nat → d < (winner m b0 b1).1.1).
Proof.
  intros Hbc.
  destruct (foldl_pick_first_max m (orderedPairs (borderCells m)) (0, b0, b1))
    as [Hmax [[Hr Hnone]|(t & Ht & Hd & Hb & Hbefore)]]; fold (winner m b0 b1) in *.
  - exists 0%nat, 1%nat. rewrite Hr, Hbc. split; [lia|]. do 2 (split; [done|]).
    intros i j bi bj d Hij Hi Hj Hdist. exfalso.
    rewrite <-Hbc in Hi, Hj.
    pose proof (Hnone (bi, bj) d (orderedPairs_elem _ _ _ _ _ Hij Hi Hj) Hdist)
      as Hle. simpl in Hle.
    assert (1 ≤ d); [|lia]. apply (bfsDistance_distinct m bi bj); [| |done].
    + apply list_elem_of_lookup_2, elem_of_borderCells in Hi. tauto.
    + intros ->. pose proof (NoDup_lookup _ _ _ _ (NoDup_borderCells m) Hi Hj). lia.
  - destruct (orderedPairs_index _ _ _ _ Ht) as (i0 & j0 & Hij0 & Hi0 & Hj0 & Hlex).
    exists i0, j0. do 3 (split; [done|]).
    intros i j bi bj d Hij Hi Hj Hdist. split; [done|]. split.
    + apply (Hmax (bi, bj)); [|done]. by eapply orderedPairs_elem.
    + intros Hord.
      destruct (Hlex i j bi bj Hij Hi Hj Hord) as (t' & Ht' & Hp).
      by apply (Hbefore t' (bi, bj)).
Qed.

Lemma borderCells_two m :
  (2 ≤ length (borderCells m))%nat →
  ∃ b0 b1 rest, borderCells m = b0 :: b1 :: rest.
Proof.
  destruct (borderCells m) as [|b0 [|b1 rest]]; simpl; [lia..|eauto].
Qed.

Lemma nearBorder_spec m x y :
  nearBorder m x y = true
  ↔ x ≤ 1 ∨ width m - 2 ≤ x ∨ y ≤ 1 ∨ height m - 2 ≤ y.
Proof. unfold nearBorder. rewrite !orb_true_iff. lia. Qed.

(** C1, as the code has it.  [setStartAndExit] always returns, leaves the
    grid as it was, and assigns a start and an exit that both lie within 2
    cells of a grid edge.  When at least 2 border cells were found, they
    are two distinct passage cells of the grid.  When fewer than 2 were
    found, they are the fixed pair [(1, 1)], [(width - 2, height - 2)]. *)
Theorem setStartAndExit_endpoints (m : MazeGenerator) :
  ∃ m' s e,
    setStartAndExit m = Some m'
    ∧ startPos m' = Some s ∧ exitPos m' = Some e
    ∧ width m' = width m ∧ height m' = height m ∧ maze m' = maze m
    ∧ (s.1 ≤ 1 ∨ width m' - 2 ≤ s.1 ∨ s.2 ≤ 1 ∨ height m' - 2 ≤ s.2)
    ∧ (e.1 ≤ 1 ∨ width m' - 2 ≤ e.1 ∨ e.2 ≤ 1 ∨ height m' - 2 ≤ e.2)
    ∧ ((2 ≤ length (borderCells m))%nat →
         s ≠ e
         ∧ isInBounds m' s.1 s.2 = true ∧ isWall m' s.1 s.2 = false
         ∧ isInBounds m' e.1 e.2 = true ∧ isWall m' e.1 e.2 = false)
    ∧ ((length (borderCells m) < 2)%nat →
         s = (1, 1) ∧ e = (width m - 2, height m - 2)).
Proof.
  destruct (decide (length (borderCells m) < 2)%nat) as [Hfew|Hmany].
  - rewrite (setStartAndExit_fallback m Hfew).
    eexists _, _, _. do 3 (split; [done|]). simpl. do 3 (split; [done|]).
    split; [lia|]. split; [lia|]. split; [lia | done].
  - destruct (borderCells_two m) as (b0 & b1 & rest & Hbc); [lia|].
    destruct (winner_first_longest m b0 b1 rest Hbc)
      as (i0 & j0 & Hij & Hi & Hj & _).
    assert (Hne : (winner m b0 b1).1.2 ≠ (winner m b0 b1).2).
    { intros Heq. rewrite Heq in Hi.
      pose proof (NoDup_lookup _ _ _ _ (NoDup_borderCells m) Hi Hj). lia. }
    apply list_elem_of_lookup_2, elem_of_borderCells in Hi as [[Hib Hiw] Hin].
    apply list_elem_of_lookup_2, elem_of_borderCells in Hj as [[Hjb Hjw] Hjn].
    apply nearBorder_spec in Hin, Hjn.
    rewrite (setStartAndExit_normal m b0 b1 rest Hbc).
    destruct (_ <? _); eexists _, _, _; (do 3 (split; [done|])); simpl;
      (do 3 (split; [done|])); (split; [done|]); (split; [done|]);
      (split; [|lia]); intros _; done.
Qed.

(** C1 as stated fails.  On the 3 by 3 grid whose only passage is the
    centre (what [generate] builds from a 3 by 3 ring) a single border
    cell is found: the fallback assigns [(1, 1)] to both the start and the
    exit. *)
Lemma setStartAndExit_fallback_same_cell :
  ∃ m', setStartAndExit (mazeOfPassages 3 3 [(1, 1)]) = Some m'
        ∧ generate rotRing 0 (mkMazeGenerator 3 3 "divided" ∅ None None)
          = Some m'
        ∧ startPos m' = Some (1, 1) ∧ exitPos m' = Some (1, 1)
        ∧ ¬ endpointsValid m'.
Proof.
  eexists. split; [vm_compute; reflexivity|].
  split; [vm_compute; reflexivity|]. split; [done|]. split; [done|].
  intros (s & e & Hs & He & Hne & _). simpl in Hs, He. congruence.
Qed.

(** On the 2 by 2 grid of walls no border cell is found: the fallback
    assigns [(1, 1)] and [(0, 0)], which are walls. *)
Lemma setStartAndExit_fallback_on_walls :
  ∃ m', setStartAndExit (mazeOfPassages 2 2 []) = Some m'
        ∧ startPos m' = Some (1, 1) ∧ exitPos m' = Some (0, 0)
        ∧ isWall m' 1 1 = true ∧ isWall m' 0 0 = true.
Proof. eexists. repeat split; vm_compute; reflexivity. Qed.

(** C4.  With at least 2 border cells, the start and the exit are the
    border cells of indices [i0 < j0] (in one order or the other); their
    breadth-first distance is defined as soon as the distance of some pair
    of border cells is, it is at least the distance of every pair of
    border cells whose distance is defined, and every pair that comes
    before [(i0, j0)] in the enumeration [i < j] has a strictly smaller
    distance: the pair kept is the first one that reaches the maximum. *)
Theorem setStartAndExit_first_longest_pair (m : MazeGenerator) :
  (2 ≤ length (borderCells m))%nat →
  ∃ m' s e i0 j0,
    setStartAndExit m = Some m'
    ∧ startPos m' = Some s ∧ exitPos m' = Some e
    ∧ (i0 < j0)%nat
    ∧ ((borderCells m !! i0 = Some s ∧ borderCells m !! j0 = Some e)
       ∨ (borderCells m !! i0 = Some e ∧ borderCells m !! j0 = Some s))
    ∧ ∀ i j bi bj d,
        (i < j)%nat → borderCells m !! i = Some bi →
        borderCells m !! j = Some bj → bfsDistance m bi bj = Some d →
        ∃ d0, bfsDistance m s e = Some d0 ∧ bfsDistance m e s = Some d0
              ∧ d ≤ d0
              ∧ ((i < i0 ∨ (i = i0 ∧ j < j0))%nat → d < d0).
Proof.
  intros Hlen. destruct (borderCells_two m Hlen) as (b0 & b1 & rest & Hbc).
  destruct (winner_first_longest m b0 b1 rest Hbc)
    as (i0 & j0 & Hij & Hi & Hj & Hbest).
  rewrite (setStartAndExit_normal m b0 b1 rest Hbc).
  set (w := winner m b0 b1) in *.
  assert (Ha : passage m w.1.2).
  { apply list_elem_of_lookup_2, elem_of_borderCells in Hi. tauto. }
  assert (Hb : passage m w.2).
  { apply list_elem_of_lookup_2, elem_of_borderCells in Hj. tauto. }
  destruct (coordSum w.1.2 <? coordSum w.2).
  - exists (setEndpoints m w.1.2 w.2), w.1.2, w.2, i0, j0.
    do 4 (split; [done|]). split; [by left|].
    intros i j bi bj d Hlt Hbi Hbj Hd.
    destruct (Hbest i j bi bj d Hlt Hbi Hbj Hd) as (Hw & Hle & Hfirst).
    exists w.1.1. split; [done|]. split; [|done].
    by rewrite <-(bfsDistance_sym m w.1.2 w.2).
  - exists (setEndpoints m w.2 w.1.2), w.2, w.1.2, i0, j0.
    do 4 (split; [done|]). split; [by right|].
    intros i j bi bj d Hlt Hbi Hbj Hd.
    destruct (Hbest i j bi bj d Hlt Hbi Hbj Hd) as (Hw & Hle & Hfirst).
    exists w.1.1. split; [|done].
    by rewrite <-(bfsDistance_sym m w.1.2 w.2).
Qed.

(** C7.  With at least 2 border cells, the coordinate sum of the start
    is at most that of the exit: of the winning pair [(bestStart,
    bestExit)], the start is [bestStart] when its sum is strictly smaller
    than that of [bestExit], and [bestExit] otherwise. *)
Theorem setStartAndExit_start_has_smaller_sum (m : MazeGenerator) :
  (2 ≤ length (borderCells m))%nat →
  ∃ m' s e b0 b1 best,
    setStartAndExit m = Some m'
    ∧ startPos m' = Some s ∧ exitPos m' = Some e
    ∧ borderCells m !! 0%nat = Some b0 ∧ borderCells m !! 1%nat = Some b1
    ∧ selectLoop m (borderCells m) (0, b0, b1) = Some best
    ∧ ((s = best.1.2 ∧ e = best.2 ∧ s.1 + s.2 < e.1 + e.2)
       ∨ (s = best.2 ∧ e = best.1.2 ∧ s.1 + s.2 ≤ e.1 + e.2))
    ∧ s.1 + s.2 ≤ e.1 + e.2.
Proof.
  intros Hlen. destruct (borderCells_two m Hlen) as (b0 & b1 & rest & Hbc).
  pose proof (setStartAndExit_normal m b0 b1 rest Hbc) as Hset.
  pose proof (selectLoop_foldl m (borderCells m) (0, b0, b1)) as Hsel.
  fold (winner m b0 b1) in Hsel. set (w := winner m b0 b1) in *.
  assert (H0 : borderCells m !! 0%nat = Some b0) by (by rewrite Hbc).
  assert (H1 : borderCells m !! 1%nat = Some b1) by (by rewrite Hbc).
  unfold coordSum in Hset. destruct (_ <? _) eqn:Hsum in Hset.
  - apply Z.ltb_lt in Hsum.
    exists (setEndpoints m w.1.2 w.2), w.1.2, w.2, b0, b1, w.
    do 6 (split; [done|]). split; [left; done | lia].
  - apply Z.ltb_ge in Hsum.
    exists (setEndpoints m w.2 w.1.2), w.2, w.1.2, b0, b1, w.
    do 6 (split; [done|]). split; [right; done | lia].
Qed.

(** ** Endpoint selection reads the grid only *)

Lemma sameGrid_allCells m1 m2 : sameGrid m1 m2 → allCells m1 = allCells m2.
Proof. intros (Hw & Hh & _). unfold allCells. by rewrite Hw, Hh. Qed.

Lemma sameGrid_isInBounds m1 m2 x y :
  sameGrid m1 m2 → isInBounds m1 x y = isInBounds m2 x y.
Proof. intros (Hw & Hh & _). unfold isInBounds. by rewrite Hw, Hh. Qed.

Lemma sameGrid_getPassageNeighbors m1 m2 x y :
  sameGrid m1 m2 → getPassageNeighbors m1 x y = getPassageNeighbors m2 x y.
Proof.
  intros Hs. unfold getPassageNeighbors. apply list_filter_iff. intros n.
  rewrite <-(sameGrid_isInBounds m1 m2 _ _ Hs).
  destruct (isInBounds m1 n.1 n.2) eqn:Hb; [|done].
  destruct Hs as (_ & _ & Hwall). by rewrite (Hwall _ _ Hb).
Qed.

Lemma sameGrid_bfsLoop m1 m2 fuel queue distances :
  sameGrid m1 m2 →
  bfsLoop fuel m1 queue distances = bfsLoop fuel m2 queue distances.
Proof.
  intros Hs. revert queue distances.
  induction fuel as [|fuel IH]; intros [|[v dv] queue] distances; try done.
  simpl. rewrite (sameGrid_getPassageNeighbors m1 m2 _ _ Hs). apply IH.
Qed.

Lemma sameGrid_calculateDistances m1 m2 x y :
  sameGrid m1 m2 → calculateDistances m1 x y = calculateDistances m2 x y.
Proof.
  intros Hs. unfold calculateDistances.
  rewrite (sameGrid_allCells m1 m2 Hs). by apply sameGrid_bfsLoop.
Qed.

Lemma sameGrid_borderCells m1 m2 :
  sameGrid m1 m2 → borderCells m1 = borderCells m2.
Proof.
  intros Hs. apply list_eq_Forall2.
  unfold borderCells. rewrite <-(sameGrid_allCells m1 m2 Hs).
  assert (Hall : Forall (λ c : Cell, isInBounds m1 c.1 c.2 = true) (allCells m1)).
  { apply Forall_forall. intros c. apply elem_of_allCells. }
  induction Hall as [|c l Hc _ IH]; [constructor|].
  rewrite !filter_cons.
  assert (isWall m1 c.1 c.2 = isWall m2 c.1 c.2) as <-
    by (destruct Hs as (_ & _ & Hwall); by apply Hwall).
  assert (nearBorder m1 c.1 c.2 = nearBorder m2 c.1 c.2) as <-
    by (destruct Hs as (Hw & Hh & _); unfold nearBorder; by rewrite Hw, Hh).
  repeat case_decide; try done. by constructor.
Qed.

Lemma sameGrid_selectLoop m1 m2 cells best :
  sameGrid m1 m2 → selectLoop m1 cells best = selectLoop m2 cells best.
Proof.
  intros Hs. revert best. induction cells as [|bi rest IH]; intros best; [done|].
  simpl. rewrite (sameGrid_calculateDistances m1 m2 _ _ Hs).
  destruct (calculateDistances m2 bi.1 bi.2); simpl; [apply IH | done].
Qed.

Lemma setStartAndExit_sameGrid m1 m2 :
  sameGrid m1 m2 →
  ∃ r1 r2, setStartAndExit m1 = Some r1 ∧ setStartAndExit m2 = Some r2
    ∧ startPos r1 = startPos r2 ∧ exitPos r1 = exitPos r2.
Proof.
  intros Hs. unfold setStartAndExit.
  rewrite <-(sameGrid_borderCells m1 m2 Hs).
  destruct Hs as (Hw & Hh & Hwall).
  destruct (borderCells m1) as [|b0 [|b1 rest]] eqn:Hbc.
  - eexists _, _. do 2 (split; [done|]). simpl. by rewrite Hw, Hh.
  - eexists _, _. do 2 (split; [done|]). simpl. by rewrite Hw, Hh.
  - rewrite <-(sameGrid_selectLoop m1 m2) by done.
    rewrite selectLoop_foldl. simpl.
    destruct (_ <? _); eexists _, _; done.
Qed.

(** C8.  [setStartAndExit] is a function of the grid: on two generator
    objects of identical dimensions whose cells have identical states, it
    assigns the same start and the same exit. *)
Theorem setStartAndExit_deterministic (m1 m2 : MazeGenerator) :
  width m1 = width m2 → height m1 = height m2 →
  (∀ x y, isInBounds m1 x y = true → isWall m1 x y = isWall m2 x y) →
  ∃ r1 r2, setStartAndExit m1 = Some r1 ∧ setStartAndExit m2 = Some r2
    ∧ startPos r1 = startPos r2 ∧ exitPos r1 = exitPos r2.
Proof. intros Hw Hh Hwall. by apply setStartAndExit_sameGrid. Qed.

(** ** Generation *)

Lemma foldl_setWall_fields {A} (f : MazeGenerator → A → MazeGenerator)
    (l : list A) (m : MazeGenerator) :
  (∀ acc a, ∃ x y w, f acc a = setWall acc x y w) →
  width (foldl f m l) = width m ∧ height (foldl f m l) = height m
  ∧ algorithm (foldl f m l) = algorithm m.
Proof.
  intros Hf. revert m. induction l as [|a l IH]; intros m; [done|]. simpl.
  destruct (IH (f m a)) as (-> & -> & ->).
  by destruct (Hf m a) as (x & y & w & ->).
Qed.

Lemma fillWalls_fields m :
  width (fillWalls m) = width m ∧ height (fillWalls m) = height m
  ∧ algorithm (fillWalls m) = algorithm m.
Proof. apply foldl_setWall_fields. intros acc c. by eexists _, _, _. Qed.

Lemma carve_fields m calls :
  width (foldl carve m calls) = width m
  ∧ height (foldl carve m calls) = height m
  ∧ algorithm (foldl carve m calls) = algorithm m.
Proof. apply foldl_setWall_fields. intros acc c. by eexists _, _, _. Qed.

Lemma selectGenerator_fillWalls_clearMaze m :
  selectGenerator (fillWalls (clearMaze m)) = selectGenerator m.
Proof.
  destruct (fillWalls_fields (clearMaze m)) as (Hw & Hh & Ha).
  unfold selectGenerator. by rewrite Hw, Hh, Ha.
Qed.

Lemma selectGenerator_default m :
  algorithm m ≠ "eller" → algorithm m ≠ "icey" → algorithm m ≠ "divided" →
  selectGenerator m = DividedMaze (width m) (height m).
Proof.
  intros H1%String.eqb_neq H2%String.eqb_neq H3%String.eqb_neq.
  unfold selectGenerator. by rewrite H1, H2, H3.
Qed.

Lemma generate_generatedGrid rotCreate seed m :
  generate rotCreate seed m = setStartAndExit (generatedGrid rotCreate seed m).
Proof. done. Qed.

(** The map built by a sequence of [setWall] depends on the map alone. *)
Lemma foldl_setWall_maze {A} (g : A → Z * Z * bool) (l : list A)
    (m1 m2 : MazeGenerator) :
  maze m1 = maze m2 →
  maze (foldl (λ acc a, setWall acc (g a).1.1 (g a).1.2 (g a).2) m1 l)
  = maze (foldl (λ acc a, setWall acc (g a).1.1 (g a).1.2 (g a).2) m2 l).
Proof.
  revert m1 m2. induction l as [|a l IH]; intros m1 m2 Hm; [done|].
  simpl. apply IH. simpl. by rewrite Hm.
Qed.

Lemma generatedGrid_setAlgorithm rotCreate seed m alg1 alg2 :
  selectGenerator (setAlgorithm m alg1) = selectGenerator (setAlgorithm m alg2) →
  sameGrid (generatedGrid rotCreate seed (setAlgorithm m alg1))
           (generatedGrid rotCreate seed (setAlgorithm m alg2))
  ∧ maze (generatedGrid rotCreate seed (setAlgorithm m alg1))
    = maze (generatedGrid rotCreate seed (setAlgorithm m alg2)).
Proof.
  intros Hgen. unfold generatedGrid.
  rewrite !selectGenerator_fillWalls_clearMaze, Hgen.
  set (calls := rotCreate _ seed).
  assert (Hmaze : maze (foldl carve (fillWalls (clearMaze (setAlgorithm m alg1))) calls)
                  = maze (foldl carve (fillWalls (clearMaze (setAlgorithm m alg2))) calls)).
  { apply (foldl_setWall_maze (λ call : Z * Z * Z, (call.1.1, call.1.2, call.2 =? 1))).
    apply (foldl_setWall_maze (λ c : Cell, (c.1, c.2, true))). done. }
  split; [|done].
  destruct (carve_fields (fillWalls (clearMaze (setAlgorithm m alg1))) calls)
    as (Hw1 & Hh1 & _).
  destruct (carve_fields (fillWalls (clearMaze (setAlgorithm m alg2))) calls)
    as (Hw2 & Hh2 & _).
  destruct (fillWalls_fields (clearMaze (setAlgorithm m alg1))) as (Hw1' & Hh1' & _).
  destruct (fillWalls_fields (clearMaze (setAlgorithm m alg2))) as (Hw2' & Hh2' & _).
  split; [|split].
  - rewrite Hw1, Hw2, Hw1', Hw2'. done.
  - rewrite Hh1, Hh2, Hh1', Hh2'. done.
  - intros x y _. unfold isWall. by rewrite Hmaze.
Qed.

Lemma setStartAndExit_fields m r :
  setStartAndExit m = Some r →
  width r = width m ∧ height r = height m ∧ algorithm r = algorithm m
  ∧ maze r = maze m.
Proof.
  unfold setStartAndExit.
  destruct (borderCells m) as [|b0 [|b1 rest]].
  - by intros [= <-].
  - by intros [= <-].
  - rewrite selectLoop_foldl. simpl. by destruct (_ <? _); intros [= <-].
Qed.

(** C5.  For an algorithm key other than ['eller'], ['icey'] and
    ['divided'], the [switch] constructs [ROT.Map.DividedMaze], the
    generator of the ['divided'] key, and [generate] returns what it
    returns for the ['divided'] key: same dimensions, same cells, same
    start and exit. *)
Theorem generate_unknown_algorithm
    (rotCreate : RotMap → Z → list (Z * Z * Z)) (seed : Z)
    (m : MazeGenerator) (alg : string) :
  alg ≠ "eller" → alg ≠ "icey" → alg ≠ "divided" →
  selectGenerator (setAlgorithm m alg) = DividedMaze (width m) (height m)
  ∧ selectGenerator (setAlgorithm m alg)
    = selectGenerator (setAlgorithm m "divided")
  ∧ ∃ r rd,
      generate rotCreate seed (setAlgorithm m alg) = Some r
      ∧ generate rotCreate seed (setAlgorithm m "divided") = Some rd
      ∧ width r = width rd ∧ height r = height rd ∧ maze r = maze rd
      ∧ startPos r = startPos rd ∧ exitPos r = exitPos rd.
Proof.
  intros H1 H2 H3.
  assert (Hsel : selectGenerator (setAlgorithm m alg)
                 = DividedMaze (width m) (height m))
    by (by apply (selectGenerator_default (setAlgorithm m alg))).
  split; [done|]. split; [done|].
  destruct (generatedGrid_setAlgorithm rotCreate seed m alg "divided" Hsel)
    as [Hsame Hmaze].
  rewrite !generate_generatedGrid.
  destruct (setStartAndExit_sameGrid _ _ Hsame) as (r & rd & Hr & Hrd & Hs & He).
  exists r, rd. do 2 (split; [done|]).
  destruct (setStartAndExit_fields _ _ Hr) as (-> & -> & _ & ->).
  destruct (setStartAndExit_fields _ _ Hrd) as (-> & -> & _ & ->).
  destruct Hsame as (Hw & Hh & _). done.
Qed.

(** ** Out-of-bounds queries *)

Lemma keysInBounds_setWall m x y w :
  isInBounds m x y = true → keysInBounds m → keysInBounds (setWall m x y w).
Proof.
  intros Hb Hkeys k [v Hk]. simpl in Hk.
  apply lookup_insert_Some in Hk as [[<- _]|[_ Hk]]; [by exists x, y|].
  apply Hkeys. by exists v.
Qed.

Lemma keysInBounds_foldl {A} (g : A → Z * Z * bool) (l : list A)
    (m : MazeGenerator) :
  Forall (λ a, isInBounds m (g a).1.1 (g a).1.2 = true) l →
  keysInBounds m →
  keysInBounds (foldl (λ acc a, setWall acc (g a).1.1 (g a).1.2 (g a).2) m l).
Proof.
  intros Hall. revert m Hall. induction l as [|a l IH]; intros m Hall Hkeys;
    [done|].
  apply Forall_cons in Hall as [Ha Hall]. simpl. apply IH.
  - eapply Forall_impl; [done|]. by intros a'.
  - by apply keysInBounds_setWall.
Qed.

Lemma keysInBounds_generatedGrid rotCreate seed m :
  Forall (λ call : Z * Z * Z, isInBounds m call.1.1 call.1.2 = true)
         (rotCreate (selectGenerator m) seed) →
  keysInBounds (generatedGrid rotCreate seed m).
Proof.
  intros Hcalls. unfold generatedGrid.
  rewrite selectGenerator_fillWalls_clearMaze.
  apply (keysInBounds_foldl (λ call : Z * Z * Z, (call.1.1, call.1.2, call.2 =? 1))).
  - eapply Forall_impl; [done|]. intros call. simpl.
    destruct (fillWalls_fields (clearMaze m)) as (Hw & Hh & _).
    unfold isInBounds. by rewrite Hw, Hh.
  - apply (keysInBounds_foldl (λ c : Cell, (c.1, c.2, true))).
    + apply Forall_forall. intros c Hc. by apply elem_of_allCells in Hc.
    + by intros k [v Hv].
Qed.

Lemma keysInBounds_carvedFrom m0 m :
  carvedFrom m0 m → keysInBounds m0 → keysInBounds m.
Proof.
  intros Hc Hkeys k Hk.
  pose proof Hc as (_ & _ & _ & _ & _ & Hmaze).
  destruct (Hmaze k) as [Heq|(_ & t & d & -> & Hb & _)].
  - rewrite Heq in Hk. destruct (Hkeys k Hk) as (x & y & -> & Hb).
    exists x, y. by rewrite (carvedFrom_isInBounds m0 m).
  - exists t.1, t.2. by rewrite (carvedFrom_isInBounds m0 m).
Qed.

Lemma keysInBounds_isWall m x y :
  keysInBounds m → isInBounds m x y = false → isWall m x y = false.
Proof.
  intros Hkeys Hout. unfold isWall.
  destruct (maze m !! key x y) as [v|] eqn:Hk; [|done].
  destruct (Hkeys (key x y)) as (x' & y' & Heq & Hb); [by eexists|].
  apply key_inj in Heq as [-> ->]. congruence.
Qed.

(** After its bounds check, [canMoveTo] queries a cell inside the grid. *)
Lemma canMoveTo_checks_bounds m (x y : Q) :
  canMoveTo m x y = true →
  isInBounds m (Qfloor (x + (1 # 2))) (Qfloor (y + (1 # 2))) = true.
Proof.
  assert (Hfloor : ∀ (q : Q) (n : Z),
            Qltb q (1 # 2) = false →
            Qle_bool (inject_Z n - (1 # 2)) q = false →
            0 ≤ Qfloor (q + (1 # 2)) < n).
  { intros q n Hlo Hhi.
    apply negb_false_iff, Qle_bool_iff in Hlo.
    assert (q < inject_Z n - (1 # 2))%Q as Hlt.
    { apply Qnot_le_lt. intros Hle%Qle_bool_iff. congruence. }
    split.
    - change 0 with (Qfloor 0). apply Qfloor_resp_le. lra.
    - rewrite Zlt_Qlt. eapply Qle_lt_trans; [apply Qfloor_le|]. lra. }
  unfold canMoveTo, getDimensions.
  destruct (Qltb x (1 # 2)) eqn:Hx1; [done|].
  destruct (Qle_bool (inject_Z (width m) - (1 # 2)) x) eqn:Hx2; [done|].
  destruct (Qltb y (1 # 2)) eqn:Hy1; [done|].
  destruct (Qle_bool (inject_Z (height m) - (1 # 2)) y) eqn:Hy2; [done|].
  intros _. apply isInBounds_spec. split; by apply Hfloor.
Qed.

(** C10.  On a maze built by [generate] from a ROT.js generator that
    reports cells of the grid only, and after any braiding of it,
    [isWall] answers [false] at every coordinate pair outside the bounds;
    [canMoveTo] checks the bounds before it queries the walls. *)
Theorem generated_isWall_out_of_bounds
    (rotCreate : RotMap → Z → list (Z * Z * Z)) (seed : Z) (m : MazeGenerator) :
  Forall (λ call : Z * Z * Z, isInBounds m call.1.1 call.1.2 = true)
         (rotCreate (selectGenerator m) seed) →
  ∃ r, generate rotCreate seed m = Some r
    ∧ (∀ x y, x < 0 ∨ width r ≤ x ∨ y < 0 ∨ height r ≤ y →
         isWall r x y = false
         ∧ ∀ percentage draws r',
             braid percentage draws r = Some r' → isWall r' x y = false)
    ∧ (∀ qx qy, canMoveTo r qx qy = true →
         isInBounds r (Qfloor (qx + (1 # 2))) (Qfloor (qy + (1 # 2))) = true).
Proof.
  intros Hcalls. rewrite generate_generatedGrid.
  pose proof (keysInBounds_generatedGrid rotCreate seed m Hcalls) as Hgrid.
  destruct (setStartAndExit_sameGrid _ _
              (conj eq_refl (conj eq_refl (λ x y _, eq_refl))
               : sameGrid (generatedGrid rotCreate seed m)
                          (generatedGrid rotCreate seed m)))
    as (r & _ & Hr & _).
  exists r. split; [done|].
  destruct (setStartAndExit_fields _ _ Hr) as (Hw & Hh & _ & Hm).
  assert (Hkeys : keysInBounds r).
  { intros k Hk. rewrite Hm in Hk. destruct (Hgrid k Hk) as (x & y & -> & Hb).
    exists x, y. split; [done|]. unfold isInBounds in *. by rewrite Hw, Hh. }
  split; [|intros qx qy; apply canMoveTo_checks_bounds].
  intros x y Hout.
  assert (Hb : isInBounds r x y = false).
  { apply not_true_is_false. rewrite isInBounds_spec. lia. }
  split; [by apply keysInBounds_isWall|].
  intros percentage draws r' Hbraid.
  apply braid_carvedFrom in Hbraid.
  apply keysInBounds_isWall; [by eapply keysInBounds_carvedFrom|].
  by rewrite (carvedFrom_isInBounds r r').
Qed.

(** ** The theorems at concrete grids *)

Lemma validDraws_alternating : validDraws alternatingDraws.
Proof. intros k. unfold alternatingDraws. by destruct (Nat.even k). Qed.

(** C2 on [grid5], braided at 100 percent. *)
Lemma braid_keeps_passages_connected_witness :
  validDraws alternatingDraws
  ∧ ∃ m', braid 100 alternatingDraws grid5 = Some m'
      ∧ (∀ x y, isWall grid5 x y = false → isWall m' x y = false)
      ∧ (∀ c, c ∈ getWalkablePositions grid5 → c ∈ getWalkablePositions m')
      ∧ (length (getWalkablePositions grid5)
         ≤ length (getWalkablePositions m'))%nat
      ∧ (fullyConnected grid5 → fullyConnected m').
Proof.
  split; [apply validDraws_alternating|].
  apply (braid_keeps_passages_connected 100 alternatingDraws grid5).
  apply validDraws_alternating.
Defined.

(** C3 on [grid5], from the corner [(1, 1)] of the corridor. *)
Lemma calculateDistances_shortest_paths_witness :
  passage grid5 (1, 1)
  ∧ ∃ distances,
      calculateDistances grid5 1 1 = Some distances
      ∧ (∀ k, is_Some (distances !! k)
              ↔ ∃ c n, k = ckey c ∧ passagePath grid5 (1, 1) c n)
      ∧ (∀ c d, distances !! ckey c = Some d →
           0 ≤ d
           ∧ passagePath grid5 (1, 1) c (Z.to_nat d)
           ∧ ∀ n, passagePath grid5 (1, 1) c n → (Z.to_nat d ≤ n)%nat).
Proof.
  split; [by vm_compute|].
  apply (calculateDistances_shortest_paths grid5 1 1). by vm_compute.
Defined.

(** C4 on [grid5], which has 7 border cells. *)
Lemma setStartAndExit_first_longest_pair_witness :
  (2 ≤ length (borderCells grid5))%nat
  ∧ ∃ m' s e i0 j0,
      setStartAndExit grid5 = Some m'
      ∧ startPos m' = Some s ∧ exitPos m' = Some e
      ∧ (i0 < j0)%nat
      ∧ ((borderCells grid5 !! i0 = Some s ∧ borderCells grid5 !! j0 = Some e)
         ∨ (borderCells grid5 !! i0 = Some e ∧ borderCells grid5 !! j0 = Some s))
      ∧ ∀ i j bi bj d,
          (i < j)%nat → borderCells grid5 !! i = Some bi →
          borderCells grid5 !! j = Some bj → bfsDistance grid5 bi bj = Some d →
          ∃ d0, bfsDistance grid5 s e = Some d0 ∧ bfsDistance grid5 e s = Some d0
                ∧ d ≤ d0
                ∧ ((i < i0 ∨ (i = i0 ∧ j < j0))%nat → d < d0).
Proof.
  split; [vm_compute; lia|].
  apply (setStartAndExit_first_longest_pair grid5). vm_compute; lia.
Defined.

(** C5 for the key ['prim'], on a 5 by 4 ring. *)
Lemma generate_unknown_algorithm_witness :
  ("prim" ≠ "eller" ∧ "prim" ≠ "icey" ∧ "prim" ≠ "divided")
  ∧ selectGenerator (setAlgorithm emptyGenerator54 "prim") = DividedMaze 5 4
  ∧ selectGenerator (setAlgorithm emptyGenerator54 "prim")
    = selectGenerator (setAlgorithm emptyGenerator54 "divided")
  ∧ ∃ r rd,
      generate rotRing 7 (setAlgorithm emptyGenerator54 "prim") = Some r
      ∧ generate rotRing 7 (setAlgorithm emptyGenerator54 "divided") = Some rd
      ∧ width r = width rd ∧ height r = height rd ∧ maze r = maze rd
      ∧ startPos r = startPos rd ∧ exitPos r = exitPos rd.
Proof.
  split; [done|].
  apply (generate_unknown_algorithm rotRing 7 emptyGenerator54 "prim"); done.
Defined.

(** C6 on [grid5], for the percentage -5/2. *)
Lemma braid_nonpositive_identity_witness :
  (-(5 # 2) <= 0)%Q
  ∧ braid (-(5 # 2)) alternatingDraws grid5 = Some grid5.
Proof.
  split; [by vm_compute|].
  apply (braid_nonpositive_identity (-(5 # 2)) alternatingDraws grid5).
  by vm_compute.
Defined.

(** C7 on [grid5]. *)
Lemma setStartAndExit_start_has_smaller_sum_witness :
  (2 ≤ length (borderCells grid5))%nat
  ∧ ∃ m' s e b0 b1 best,
      setStartAndExit grid5 = Some m'
      ∧ startPos m' = Some s ∧ exitPos m' = Some e
      ∧ borderCells grid5 !! 0%nat = Some b0
      ∧ borderCells grid5 !! 1%nat = Some b1
      ∧ selectLoop grid5 (borderCells grid5) (0, b0, b1) = Some best
      ∧ ((s = best.1.2 ∧ e = best.2 ∧ s.1 + s.2 < e.1 + e.2)
         ∨ (s = best.2 ∧ e = best.1.2 ∧ s.1 + s.2 ≤ e.1 + e.2))
      ∧ s.1 + s.2 ≤ e.1 + e.2.
Proof.
  split; [vm_compute; lia|].
  apply (setStartAndExit_start_has_smaller_sum grid5). vm_compute; lia.
Defined.

Lemma grid5_relabelled_same_cells x y :
  isInBounds grid5 x y = true → isWall grid5 x y = isWall grid5Relabelled x y.
Proof.
  intros Hb. unfold grid5Relabelled. rewrite isWall_setWall.
  case_decide as Heq; [|done]. by simplify_eq.
Qed.

(** C8 on [grid5] and [grid5Relabelled]. *)
Lemma setStartAndExit_deterministic_witness :
  (width grid5 = width grid5Relabelled ∧ height grid5 = height grid5Relabelled
   ∧ ∀ x y, isInBounds grid5 x y = true →
            isWall grid5 x y = isWall grid5Relabelled x y)
  ∧ ∃ r1 r2,
      setStartAndExit grid5 = Some r1 ∧ setStartAndExit grid5Relabelled = Some r2
      ∧ startPos r1 = startPos r2 ∧ exitPos r1 = exitPos r2.
Proof.
  split; [split; [done|split; [done | apply grid5_relabelled_same_cells]]|].
  apply (setStartAndExit_deterministic grid5 grid5Relabelled);
    [done | done | apply grid5_relabelled_same_cells].
Defined.

(** C9 on [grid5], braided at 100 percent. *)
Lemma braid_frame_witness :
  validDraws alternatingDraws
  ∧ ∃ m', braid 100 alternatingDraws grid5 = Some m'
      ∧ width m' = width grid5 ∧ height m' = height grid5
      ∧ startPos m' = startPos grid5 ∧ exitPos m' = exitPos grid5
      ∧ (∀ k, maze m' !! k ≠ maze grid5 !! k →
           ∃ t, k = ckey t ∧ maze m' !! k = Some false
                ∧ isInBounds grid5 t.1 t.2 = true ∧ isWall grid5 t.1 t.2 = true
                ∧ ∃ d, deadEnd grid5 d ∧ adjacent d t)
      ∧ (∀ x y, isWall m' x y ≠ isWall grid5 x y →
           isWall m' x y = false
           ∧ isInBounds grid5 x y = true ∧ isWall grid5 x y = true
           ∧ ∃ d, deadEnd grid5 d ∧ adjacent d (x, y)).
Proof.
  split; [apply validDraws_alternating|].
  apply (braid_frame 100 alternatingDraws grid5), validDraws_alternating.
Defined.

(** C10 on the maze generated from a 5 by 4 ring. *)
Lemma generated_isWall_out_of_bounds_witness :
  Forall (λ call : Z * Z * Z,
            isInBounds emptyGenerator54 call.1.1 call.1.2 = true)
         (rotRing (selectGenerator emptyGenerator54) 7)
  ∧ ∃ r, generate rotRing 7 emptyGenerator54 = Some r
      ∧ (∀ x y, x < 0 ∨ width r ≤ x ∨ y < 0 ∨ height r ≤ y →
           isWall r x y = false
           ∧ ∀ percentage draws r',
               braid percentage draws r = Some r' → isWall r' x y = false)
      ∧ (∀ qx qy, canMoveTo r qx qy = true →
           isInBounds r (Qfloor (qx + (1 # 2))) (Qfloor (qy + (1 # 2))) = true).
Proof.
  split; [vm_compute; repeat constructor|].
  apply (generated_isWall_out_of_bounds rotRing 7 emptyGenerator54).
  vm_compute. repeat constructor.
Defined.

(** * Further properties of the maze object *)

(** ** Wall states *)

(** X1.  [isWall] reads back what [setWall] wrote at a cell, and the
    answer at every other coordinate pair is as before: two different
    coordinate pairs never share a key of the map. *)
Theorem setWall_isWall_round_trip (m : MazeGenerator) (x y : Z) (w : bool) :
  isWall (setWall m x y w) x y = w
  ∧ (∀ x' y', (x', y') ≠ (x, y) →
       isWall (setWall m x y w) x' y' = isWall m x' y')
  ∧ (∀ x' y', key x' y' = key x y → x' = x ∧ y' = y).
Proof.
  split; [|split].
  - rewrite isWall_setWall. by case_decide.
  - intros x' y' Hne. rewrite isWall_setWall. case_decide; congruence.
  - intros x' y'. apply key_inj.
Qed.

Lemma length_bind_const {A B} (f : A → list B) (n : nat) (l : list A) :
  (∀ a, length (f a) = n) → length (l ≫= f) = (length l * n)%nat.
Proof.
  intros Hf. induction l as [|a l IH]; [done|].
  cbn [mbind list_bind length]. rewrite length_app, Hf.
  change (length (l ≫= f) = (length l * n)%nat) in IH. rewrite IH. lia.
Qed.

Lemma length_allCells m :
  length (allCells m) = (Z.to_nat (height m) * Z.to_nat (width m))%nat.
Proof.
  unfold allCells.
  rewrite (length_bind_const _ (Z.to_nat (width m))), length_seqZ; [done|].
  intros y. rewrite (length_bind_const _ 1%nat), length_seqZ; [lia|done].
Qed.

Lemma length_filter_split {A} (P : A → bool) (l : list A) :
  (length (filter (λ a, P a) l) + length (filter (λ a, negb (P a)) l)
   = length l)%nat.
Proof.
  induction l as [|a l IH]; [done|]. rewrite !filter_cons.
  destruct (P a); simpl; repeat case_decide; simpl in *; try done; lia.
Qed.

(** X2.  Every cell of the scan is counted as a wall or listed as
    walkable, never both: the wall count and the number of walkable
    positions add up to the number of cells, [width * height]. *)
Theorem wallCount_plus_walkable (m : MazeGenerator) :
  (wallCount m + length (getWalkablePositions m)
   = Z.to_nat (height m) * Z.to_nat (width m))%nat
  ∧ ∀ c, c ∈ getWalkablePositions m ↔ passage m c.
Proof.
  split.
  - unfold wallCount, getWalkablePositions.
    rewrite <-length_allCells.
    apply (length_filter_split (λ c : Cell, isWall m c.1 c.2)).
  - intros c. unfold getWalkablePositions, passage.
    rewrite list_elem_of_filter, elem_of_allCells.
    destruct (isWall m c.1 c.2); simpl; intuition congruence.
Qed.

(** ** Neighbours *)

Lemma NoDup_neighbours4 x y : NoDup (neighbours4 x y).
Proof.
  unfold neighbours4, directions. cbn [fmap list_fmap].
  repeat (apply NoDup_cons; split;
          [rewrite ?elem_of_cons, elem_of_nil; intros H;
           repeat destruct H as [H|H]; try done; simplify_eq/=; lia|]).
  apply NoDup_nil_2.
Qed.

Lemma length_filter_disjoint {A} (P1 P2 : A → Prop)
    `{!∀ x, Decision (P1 x), !∀ x, Decision (P2 x)} (l : list A) :
  (∀ a, P1 a → P2 a → False) →
  (length (filter P1 l) + length (filter P2 l) ≤ length l)%nat.
Proof.
  intros Hdis. induction l as [|a l IH]; [done|]. rewrite !filter_cons.
  destruct (decide (P1 a)), (decide (P2 a)); simpl; try lia.
  by destruct (Hdis a).
Qed.

(** X3.  The passage neighbours and the walled neighbours of a cell
    split its orthogonal neighbours inside the bounds: together they list
    each such neighbour once, no cell is in both lists, and there are at
    most 4 of them. *)
Theorem neighbours_split (m : MazeGenerator) (x y : Z) :
  NoDup (getPassageNeighbors m x y ++ getWalledNeighbors m x y)
  ∧ (∀ n : Cell, n ∈ getPassageNeighbors m x y ++ getWalledNeighbors m x y
       ↔ adjacent (x, y) n ∧ isInBounds m n.1 n.2 = true)
  ∧ (∀ n : Cell, n ∈ getPassageNeighbors m x y →
       n ∈ getWalledNeighbors m x y → False)
  ∧ (length (getPassageNeighbors m x y)
     + length (getWalledNeighbors m x y) ≤ 4)%nat.
Proof.
  assert (Hdis : ∀ n : Cell, n ∈ getPassageNeighbors m x y →
            n ∈ getWalledNeighbors m x y → False).
  { intros n (_ & _ & Hp)%elem_of_getPassageNeighbors
             (_ & _ & Hw)%elem_of_getWalledNeighbors. congruence. }
  split; [|split; [|split; [done|]]].
  - apply NoDup_app. split; [apply NoDup_filter, NoDup_neighbours4|].
    split; [intros n Hp Hw; by apply (Hdis n)|].
    apply NoDup_filter, NoDup_neighbours4.
  - intros n. rewrite elem_of_app, elem_of_getPassageNeighbors,
      elem_of_getWalledNeighbors. unfold passage.
    destruct (isWall m n.1 n.2); intuition congruence.
  - etrans; [apply length_filter_disjoint|done].
    intros n Hp Hw. destruct (isWall m n.1 n.2), (isInBounds m n.1 n.2); done.
Qed.

(** ** More on braiding *)

Lemma grows_refl m : grows m m.
Proof. by repeat split. Qed.

Lemma grows_trans m1 m2 m3 : grows m1 m2 → grows m2 m3 → grows m1 m3.
Proof.
  intros (Hw1 & Hh1 & H1) (Hw2 & Hh2 & H2). repeat split; [congruence..|].
  intros x y Hxy. by apply H2, H1.
Qed.

Lemma grows_setWall_false m x y : grows m (setWall m x y false).
Proof.
  repeat split. intros x' y' Hw. rewrite isWall_setWall. by case_decide.
Qed.

Lemma braidCell_grows percentage draws m k cell m' k' :
  braidCell percentage draws (m, k) cell = Some (m', k') → grows m m'.
Proof.
  intros [->|(target & _ & ->)]%braidCell_cases;
    [apply grows_refl | apply grows_setWall_false].
Qed.

Lemma braidLoop_grows percentage draws deadEnds m k m' k' :
  braidLoop percentage draws deadEnds (m, k) = Some (m', k') → grows m m'.
Proof.
  revert m k. induction deadEnds as [|cell rest IH]; intros m k; cbn [braidLoop].
  - intros [= <- _]. apply grows_refl.
  - destruct (braidCell percentage draws (m, k) cell) as [[m1 k1]|] eqn:Hcell;
      [|done].
    intros Hloop. eapply grows_trans; [by eapply braidCell_grows|by eapply IH].
Qed.

Lemma grows_isInBounds m1 m2 x y :
  grows m1 m2 → isInBounds m2 x y = isInBounds m1 x y.
Proof. intros (Hw & Hh & _). unfold isInBounds. by rewrite Hw, Hh. Qed.

Lemma grows_passage_neighbours m1 m2 x y :
  grows m1 m2 →
  (length (getPassageNeighbors m1 x y)
   ≤ length (getPassageNeighbors m2 x y))%nat.
Proof.
  intros Hg. apply length_filter_mono. intros n.
  rewrite (grows_isInBounds m1 m2 _ _ Hg).
  destruct (isInBounds m1 n.1 n.2); [|done].
  destruct (isWall m1 n.1 n.2) eqn:Hw; [done|].
  destruct Hg as (_ & _ & Hg). by rewrite (Hg _ _ Hw).
Qed.

Lemma grows_walled_neighbours_nil m1 m2 x y :
  grows m1 m2 →
  getWalledNeighbors m1 x y = [] → getWalledNeighbors m2 x y = [].
Proof.
  intros Hg Hnil. apply elem_of_nil_inv. intros n Hn.
  apply elem_of_getWalledNeighbors in Hn as (Hadj & Hb & Hw).
  assert (n ∈ getWalledNeighbors m1 x y) as Hin; [|by rewrite Hnil in Hin;
    apply elem_of_nil in Hin].
  apply elem_of_getWalledNeighbors. split; [done|].
  rewrite <-(grows_isInBounds m1 m2 _ _ Hg). split; [done|].
  destruct (isWall m1 n.1 n.2) eqn:Hw1; [done|].
  destruct Hg as (_ & _ & Hg). rewrite (Hg _ _ Hw1) in Hw. done.
Qed.

Lemma carve_adds_passage_neighbour m x y (target : Cell) :
  target ∈ getWalledNeighbors m x y →
  (length (getPassageNeighbors m x y)
   < length (getPassageNeighbors (setWall m target.1 target.2 false) x y))%nat.
Proof.
  intros (Hadj & Hb & Hw)%elem_of_getWalledNeighbors.
  apply (length_filter_strict _ _ _ target).
  - intros n. rewrite isWall_setWall.
    change (isInBounds (setWall m target.1 target.2 false)) with (isInBounds m).
    destruct (isInBounds m n.1 n.2); [|done].
    case_decide; simpl; [done|]. by destruct (isWall m n.1 n.2).
  - by apply elem_of_neighbours4.
  - rewrite isWall_setWall.
    change (isInBounds (setWall m target.1 target.2 false)) with (isInBounds m).
    rewrite Hb. case_decide; [done|]. by destruct target.
  - rewrite Hb, Hw. simpl. tauto.
Qed.

Lemma saturatedAt_grows m1 m2 c :
  grows m1 m2 → saturatedAt m1 c → saturatedAt m2 c.
Proof.
  intros Hg [Htwo|Hnil].
  - left. pose proof (grows_passage_neighbours m1 m2 c.1 c.2 Hg). lia.
  - right. by eapply grows_walled_neighbours_nil.
Qed.

Lemma full_percentage_passes (percentage r : Q) :
  (100 <= percentage)%Q → (r < 1)%Q → Qltb (r * 100) percentage = true.
Proof.
  intros Hp Hr. unfold Qltb. apply negb_true_iff.
  destruct (Qle_bool percentage (r * 100)) eqn:Hle; [|done].
  apply Qle_bool_iff in Hle. lra.
Qed.

Lemma braidCell_saturates percentage draws m k cell m' k' :
  (100 <= percentage)%Q → validDraws draws →
  (1 ≤ length (getPassageNeighbors m cell.1 cell.2))%nat →
  braidCell percentage draws (m, k) cell = Some (m', k') →
  saturatedAt m' cell.
Proof.
  intros Hp Hdraws Hone. unfold braidCell.
  rewrite (full_percentage_passes _ _ Hp (proj2 (Hdraws k))).
  destruct (0 <? _)%nat eqn:Hlen.
  - destruct (0 <=? _); [|done].
    destruct (_ !! _) as [target|] eqn:Ht; [|done].
    intros [= <- _]. left. apply list_elem_of_lookup_2 in Ht.
    pose proof (carve_adds_passage_neighbour m cell.1 cell.2 target Ht). lia.
  - intros [= <- _]. right. apply Nat.ltb_ge in Hlen.
    destruct (getWalledNeighbors m cell.1 cell.2); [done | simpl in Hlen; lia].
Qed.

Lemma braidLoop_saturates percentage draws deadEnds m k m' k' :
  (100 <= percentage)%Q → validDraws draws →
  (∀ d, d ∈ deadEnds → (1 ≤ length (getPassageNeighbors m d.1 d.2))%nat) →
  braidLoop percentage draws deadEnds (m, k) = Some (m', k') →
  ∀ d, d ∈ deadEnds → saturatedAt m' d.
Proof.
  intros Hp Hdraws. revert m k.
  induction deadEnds as [|cell rest IH]; intros m k Hone; cbn [braidLoop].
  - by intros _ d []%elem_of_nil.
  - destruct (braidCell percentage draws (m, k) cell) as [[m1 k1]|] eqn:Hcell;
      [|done].
    intros Hloop d [->|Hd]%elem_of_cons.
    + eapply saturatedAt_grows; [by eapply braidLoop_grows|].
      eapply braidCell_saturates; [done..| |done]. apply Hone. by left.
    + apply (IH m1 k1); [|done..]. intros d' Hd'.
      pose proof (grows_passage_neighbours m m1 d'.1 d'.2
                    (braidCell_grows _ _ _ _ _ _ _ Hcell)).
      assert (d' ∈ cell :: rest) as Hin by (by right).
      specialize (Hone d' Hin). lia.
Qed.

(** X4.  Braiding at 100 percent or more deals with every dead end of the
    grid: afterwards it has at least two passage neighbours, or it has no
    walled neighbour left inside the bounds.  So a dead end of the grid
    that is still a dead end has no wall around it to carve. *)
Theorem braid_full_saturates
    (percentage : Q) (draws : nat → Q) (m : MazeGenerator) :
  (100 <= percentage)%Q → validDraws draws →
  ∃ m', braid percentage draws m = Some m'
    ∧ (∀ d, deadEnd m d →
         (2 ≤ length (getPassageNeighbors m' d.1 d.2))%nat
         ∨ getWalledNeighbors m' d.1 d.2 = [])
    ∧ (∀ d, deadEnd m d → deadEnd m' d → getWalledNeighbors m' d.1 d.2 = []).
Proof.
  intros Hp Hdraws. destruct (braid_total percentage draws m Hdraws) as [m' Hm'].
  exists m'. split; [done|].
  assert (Hsat : ∀ d, deadEnd m d → saturatedAt m' d).
  { revert Hm'. unfold braid.
    destruct (Qle_bool percentage 0) eqn:Hle; [apply Qle_bool_iff in Hle; lra|].
    destruct (braidLoop _ _ _ _) as [[m1 k1]|] eqn:Hloop; [|done].
    intros [= <-] d Hd. eapply braidLoop_saturates; [done..| |done|].
    - intros d' [_ Hone]%elem_of_findAllDeadEnds. lia.
    - by apply elem_of_findAllDeadEnds. }
  split; [done|]. intros d Hd [_ Hone].
  destruct (Hsat d Hd) as [Htwo|Hnil]; [lia | done].
Qed.

(** X4 on [grid5]. *)
Lemma braid_full_saturates_witness :
  ((100 <= 100)%Q ∧ validDraws alternatingDraws)
  ∧ ∃ m', braid 100 alternatingDraws grid5 = Some m'
      ∧ (∀ d, deadEnd grid5 d →
           (2 ≤ length (getPassageNeighbors m' d.1 d.2))%nat
           ∨ getWalledNeighbors m' d.1 d.2 = [])
      ∧ (∀ d, deadEnd grid5 d → deadEnd m' d →
           getWalledNeighbors m' d.1 d.2 = []).
Proof.
  split; [split; [by vm_compute | apply validDraws_alternating]|].
  apply (braid_full_saturates 100 alternatingDraws grid5);
    [by vm_compute | apply validDraws_alternating].
Defined.

Lemma length_filter_mono_on {A} (P1 P2 : A → Prop)
    `{!∀ x, Decision (P1 x), !∀ x, Decision (P2 x)} (l : list A) :
  (∀ a, a ∈ l → P1 a → P2 a) →
  (length (filter P1 l) ≤ length (filter P2 l))%nat.
Proof.
  induction l as [|a l IH]; intros Himp; [done|]. rewrite !filter_cons.
  assert (length (filter P1 l) ≤ length (filter P2 l))%nat
    by (apply IH; intros a' Ha'; apply Himp; by right).
  destruct (decide (P1 a)) as [Ha1|Ha1], (decide (P2 a)) as [Ha2|Ha2];
    simpl; try lia.
  destruct Ha2. apply Himp; [by left | done].
Qed.

Lemma length_filter_one_more {A} (P1 P2 : A → Prop)
    `{!∀ x, Decision (P1 x), !∀ x, Decision (P2 x)} (l : list A) (t : A) :
  NoDup l → (∀ a, P2 a → P1 a ∨ a = t) →
  (length (filter P2 l) ≤ S (length (filter P1 l)))%nat.
Proof.
  intros Hnd Himp. induction Hnd as [|a l Ha Hnd IH]; [simpl; lia|].
  rewrite !filter_cons.
  destruct (decide (P2 a)) as [H2|H2]; simpl.
  - destruct (decide (P1 a)) as [H1|H1]; simpl; [lia|].
    destruct (Himp a H2) as [?| ->]; [done|].
    assert (length (filter P2 l) ≤ length (filter P1 l))%nat; [|lia].
    apply length_filter_mono_on. intros a' Ha' H2'.
    destruct (Himp a' H2') as [?| ->]; done.
  - destruct (decide (P1 a)); simpl; lia.
Qed.

Lemma carve_one_more_walkable m x y :
  (length (getWalkablePositions (setWall m x y false))
   ≤ S (length (getWalkablePositions m)))%nat.
Proof.
  unfold getWalkablePositions. rewrite allCells_setWall.
  apply (length_filter_one_more _ _ _ (x, y)); [apply NoDup_allCells|].
  intros c. rewrite isWall_setWall.
  case_decide as Heq; [right; by destruct c; simplify_eq/= | by left].
Qed.

Lemma braidLoop_walkable_bound percentage draws deadEnds m k m' k' :
  braidLoop percentage draws deadEnds (m, k) = Some (m', k') →
  (length (getWalkablePositions m')
   ≤ length (getWalkablePositions m) + length deadEnds)%nat.
Proof.
  revert m k. induction deadEnds as [|cell rest IH]; intros m k; cbn [braidLoop].
  - intros [= <- _]. lia.
  - destruct (braidCell percentage draws (m, k) cell) as [[m1 k1]|] eqn:Hcell;
      [|done].
    intros Hloop%IH. simpl.
    apply braidCell_cases in Hcell as [->|(target & _ & ->)]; [lia|].
    pose proof (carve_one_more_walkable m target.1 target.2). lia.
Qed.

(** X5.  [braid] carves at most one wall per dead end of the grid: the
    number of walkable positions grows by at most the number of dead ends
    found before the loop (and by nothing when there is none). *)
Theorem braid_walkable_bound
    (percentage : Q) (draws : nat → Q) (m : MazeGenerator) :
  validDraws draws →
  ∃ m', braid percentage draws m = Some m'
    ∧ (length (getWalkablePositions m')
       ≤ length (getWalkablePositions m) + length (findAllDeadEnds m))%nat
    ∧ (findAllDeadEnds m = [] → m' = m).
Proof.
  intros Hdraws. destruct (braid_total percentage draws m Hdraws) as [m' Hm'].
  exists m'. split; [done|]. revert Hm'. unfold braid.
  destruct (Qle_bool percentage 0).
  - intros [= <-]. split; [lia | done].
  - destruct (braidLoop _ _ _ _) as [[m1 k1]|] eqn:Hloop; [|done].
    intros [= <-]. split; [by eapply braidLoop_walkable_bound|].
    intros Hnil. rewrite Hnil in Hloop. by simplify_eq/=.
Qed.

(** X5 on [grid5]. *)
Lemma braid_walkable_bound_witness :
  validDraws alternatingDraws
  ∧ ∃ m', braid 100 alternatingDraws grid5 = Some m'
      ∧ (length (getWalkablePositions m')
         ≤ length (getWalkablePositions grid5)
           + length (findAllDeadEnds grid5))%nat
      ∧ (findAllDeadEnds grid5 = [] → m' = grid5).
Proof.
  split; [apply validDraws_alternating|].
  apply (braid_walkable_bound 100 alternatingDraws grid5),
    validDraws_alternating.
Defined.

(** ** More on distances and endpoint selection *)

(** X6.  Breadth-first distances do not depend on the direction: for two
    passage cells, the entry of the second in the map computed from the
    first is the entry of the first in the map computed from the second
    (both absent, or the same number). *)
Theorem calculateDistances_symmetric (m : MazeGenerator) (a b : Cell) :
  passage m a → passage m b →
  ∃ fromA fromB,
    calculateDistances m a.1 a.2 = Some fromA
    ∧ calculateDistances m b.1 b.2 = Some fromB
    ∧ fromA !! ckey b = fromB !! ckey a.
Proof.
  intros Ha Hb. pose proof (bfsDistance_sym m a b Ha Hb) as Hsym.
  unfold bfsDistance in Hsym.
  destruct (calculateDistances_total m a.1 a.2) as (fromA & HA & _).
  destruct (calculateDistances_total m b.1 b.2) as (fromB & HB & _).
  rewrite HA, HB in Hsym. by exists fromA, fromB.
Qed.

(** X6 on [grid5], between the two ends of the corridor. *)
Lemma calculateDistances_symmetric_witness :
  (passage grid5 (1, 3) ∧ passage grid5 (3, 3))
  ∧ ∃ fromA fromB,
      calculateDistances grid5 1 3 = Some fromA
      ∧ calculateDistances grid5 3 3 = Some fromB
      ∧ fromA !! ckey (3, 3) = fromB !! ckey (1, 3).
Proof.
  split; [by vm_compute|].
  apply (calculateDistances_symmetric grid5 (1, 3) (3, 3)); by vm_compute.
Defined.

(** X7.  Whatever the source, a wall or a pair outside the bounds
    included, [calculateDistances] returns a map that gives the source
    the distance 0; every other key is the key of a passage cell of the
    grid, at a distance of 1 or more. *)
Theorem calculateDistances_any_source (m : MazeGenerator) (x y : Z) :
  ∃ distances,
    calculateDistances m x y = Some distances
    ∧ distances !! key x y = Some 0
    ∧ ∀ k d, distances !! k = Some d →
        (k = key x y ∧ d = 0)
        ∨ (1 ≤ d ∧ ∃ c, k = ckey c ∧ c ≠ (x, y) ∧ passage m c).
Proof.
  destruct (calculateDistances_total m x y) as (distances & Hcalc & Hinv).
  exists distances. split; [done|].
  pose proof (inv_source _ _ _ _ Hinv) as Hsrc. split; [done|].
  intros k d Hd.
  destruct (inv_sound _ _ _ _ Hinv k d Hd) as (Hpos & c & -> & Hwalk).
  destruct (decide (c = (x, y))) as [->|Hne].
  - left. split; [done|]. rewrite Hsrc in Hd. congruence.
  - right. destruct (Z.to_nat d) as [|n] eqn:Hn.
    + apply walk_zero in Hwalk. done.
    + split; [lia|]. exists c. split; [done|]. split; [done|].
      inversion Hwalk as [|c0 n0 c' _ Hstep]; subst.
      by apply elem_of_getPassageNeighbors in Hstep as [_ Hp].
Qed.

Lemma winner_without_connected_pair m b0 b1 rest :
  borderCells m = b0 :: b1 :: rest →
  (∀ i j bi bj, (i < j)%nat → borderCells m !! i = Some bi →
     borderCells m !! j = Some bj → bfsDistance m bi bj = None) →
  winner m b0 b1 = (0, b0, b1).
Proof.
  intros Hbc Hnone.
  destruct (foldl_pick_first_max m (orderedPairs (borderCells m)) (0, b0, b1))
    as [_ [[Hr _]|(t & Ht & Hd & _)]]; fold (winner m b0 b1) in *; [done|].
  destruct (orderedPairs_index _ _ _ _ Ht) as (i0 & j0 & Hij & Hi & Hj & _).
  rewrite (Hnone i0 j0 _ _ Hij Hi Hj) in Hd. done.
Qed.

(** X8.  With at least 2 border cells of which no two are joined by a
    passage path, the endpoints are the first two border cells of the
    scan: the first is the start when its coordinate sum is strictly
    smaller than that of the second, and the exit otherwise. *)
Theorem setStartAndExit_without_connected_pair (m : MazeGenerator) :
  (2 ≤ length (borderCells m))%nat →
  (∀ a b n, a ∈ borderCells m → b ∈ borderCells m → a ≠ b →
     ¬ passagePath m a b n) →
  ∃ m' b0 b1,
    borderCells m !! 0%nat = Some b0 ∧ borderCells m !! 1%nat = Some b1
    ∧ setStartAndExit m = Some m'
    ∧ (startPos m', exitPos m')
      = (if b0.1 + b0.2 <? b1.1 + b1.2
         then (Some b0, Some b1) else (Some b1, Some b0)).
Proof.
  intros Hlen Hapart.
  destruct (borderCells_two m Hlen) as (b0 & b1 & rest & Hbc).
  assert (Hw : winner m b0 b1 = (0, b0, b1)).
  { apply (winner_without_connected_pair m b0 b1 rest Hbc).
    intros i j bi bj Hij Hi Hj.
    destruct (bfsDistance m bi bj) as [d|] eqn:Hd; [|done]. exfalso.
    assert (passage m bi) as Hpi.
    { apply list_elem_of_lookup_2, elem_of_borderCells in Hi. tauto. }
    apply bfsDistance_Some in Hd as (_ & Hpath & _); [|done].
    apply (Hapart bi bj (Z.to_nat d)); [by eapply list_elem_of_lookup_2..| |done].
    intros ->. pose proof (NoDup_lookup _ _ _ _ (NoDup_borderCells m) Hi Hj). lia. }
  pose proof (setStartAndExit_normal m b0 b1 rest Hbc) as Hset.
  rewrite Hw in Hset. unfold coordSum in Hset. simpl in Hset.
  eexists _, b0, b1. rewrite Hbc at 1 2. do 2 (split; [done|]).
  split; [done|]. by destruct (_ <? _).
Qed.

Lemma isolated_passagePath m a b n :
  getPassageNeighbors m a.1 a.2 = [] → passagePath m a b n → b = a.
Proof.
  intros Hnil. induction 1 as [|c n c' _ -> Hadj Hc']; [done|].
  assert (c' ∈ getPassageNeighbors m a.1 a.2) as Hin.
  { apply elem_of_getPassageNeighbors. split; [by destruct a | done]. }
  rewrite Hnil in Hin. by apply elem_of_nil in Hin.
Qed.

Lemma gridIslands_apart (a b : Cell) (n : nat) :
  a ∈ borderCells gridIslands → b ∈ borderCells gridIslands → a ≠ b →
  ¬ passagePath gridIslands a b n.
Proof.
  intros Ha Hb Hne Hpath. apply Hne. symmetry.
  apply (isolated_passagePath gridIslands a b n); [|done].
  change (borderCells gridIslands) with [(1, 1); (3, 3)] in Ha.
  apply elem_of_cons in Ha as [->|Ha]; [by vm_compute|].
  apply list_elem_of_singleton in Ha as ->. by vm_compute.
Qed.

(** X8 on [gridIslands], whose border cells are [(1, 1)] and [(3, 3)]. *)
Lemma setStartAndExit_without_connected_pair_witness :
  (2 ≤ length (borderCells gridIslands))%nat
  ∧ ∃ m' b0 b1,
      borderCells gridIslands !! 0%nat = Some b0
      ∧ borderCells gridIslands !! 1%nat = Some b1
      ∧ setStartAndExit gridIslands = Some m'
      ∧ (startPos m', exitPos m')
        = (if b0.1 + b0.2 <? b1.1 + b1.2
           then (Some b0, Some b1) else (Some b1, Some b0)).
Proof.
  split; [vm_compute; lia|].
  apply (setStartAndExit_without_connected_pair gridIslands);
    [vm_compute; lia | apply gridIslands_apart].
Defined.

(** X9.  In a grid at most 4 cells wide or at most 4 cells high the
    border band covers the grid: the border cells are all the walkable
    positions, in the same order. *)
Theorem borderCells_narrow_grid (m : MazeGenerator) :
  width m ≤ 4 ∨ height m ≤ 4 → borderCells m = getWalkablePositions m.
Proof.
  intros Hsmall. unfold borderCells, getWalkablePositions.
  assert (Hall : Forall (λ c : Cell, isInBounds m c.1 c.2 = true) (allCells m)).
  { apply Forall_forall. intros c. apply elem_of_allCells. }
  induction Hall as [|c l Hc _ IH]; [done|].
  rewrite !filter_cons, IH.
  assert (nearBorder m c.1 c.2 = true) as ->.
  { apply isInBounds_spec in Hc. apply nearBorder_spec. lia. }
  rewrite andb_true_r. done.
Qed.

(** X9 on the 3 by 3 grid with a passage in the centre. *)
Lemma borderCells_narrow_grid_witness :
  (width (mazeOfPassages 3 3 [(1, 1)]) ≤ 4
   ∨ height (mazeOfPassages 3 3 [(1, 1)]) ≤ 4)
  ∧ borderCells (mazeOfPassages 3 3 [(1, 1)])
    = getWalkablePositions (mazeOfPassages 3 3 [(1, 1)]).
Proof.
  split; [left; by vm_compute|].
  apply (borderCells_narrow_grid (mazeOfPassages 3 3 [(1, 1)])).
  left. by vm_compute.
Defined.

(** ** More on generation *)

Lemma setStartAndExit_ext m1 m2 :
  width m1 = width m2 → height m1 = height m2 →
  algorithm m1 = algorithm m2 → maze m1 = maze m2 →
  setStartAndExit m1 = setStartAndExit m2.
Proof.
  intros Hw Hh Ha Hm.
  assert (Hs : sameGrid m1 m2).
  { repeat split; [done..|]. intros x y _. unfold isWall. by rewrite Hm. }
  unfold setStartAndExit, setEndpoints.
  rewrite <-(sameGrid_borderCells m1 m2 Hs).
  destruct (borderCells m1) as [|b0 [|b1 rest]].
  - by rewrite Hw, Hh, Ha, Hm.
  - by rewrite Hw, Hh, Ha, Hm.
  - rewrite <-(sameGrid_selectLoop m1 m2 _ _ Hs).
    rewrite selectLoop_foldl. simpl. rewrite Hw, Hh, Ha, Hm. done.
Qed.

Lemma generatedGrid_ext rotCreate seed m1 m2 :
  width m1 = width m2 → height m1 = height m2 →
  algorithm m1 = algorithm m2 →
  maze (generatedGrid rotCreate seed m1) = maze (generatedGrid rotCreate seed m2).
Proof.
  intros Hw Hh Ha. unfold generatedGrid.
  rewrite !selectGenerator_fillWalls_clearMaze.
  assert (selectGenerator m1 = selectGenerator m2) as ->
    by (unfold selectGenerator; by rewrite Hw, Hh, Ha).
  apply (foldl_setWall_maze (λ call : Z * Z * Z, (call.1.1, call.1.2, call.2 =? 1))).
  unfold fillWalls.
  assert (allCells (clearMaze m1) = allCells (clearMaze m2)) as ->
    by (unfold allCells; simpl; by rewrite Hw, Hh).
  apply (foldl_setWall_maze (λ c : Cell, (c.1, c.2, true))). done.
Qed.

Lemma generatedGrid_fields rotCreate seed m :
  width (generatedGrid rotCreate seed m) = width m
  ∧ height (generatedGrid rotCreate seed m) = height m
  ∧ algorithm (generatedGrid rotCreate seed m) = algorithm m.
Proof.
  unfold generatedGrid.
  destruct (carve_fields (fillWalls (clearMaze m))
              (rotCreate (selectGenerator (fillWalls (clearMaze m))) seed))
    as (-> & -> & ->).
  apply (fillWalls_fields (clearMaze m)).
Qed.

(** X10.  [generate] starts from scratch: what it returns depends on the
    dimensions and the algorithm key of the object only, not on a maze,
    a start or an exit left by an earlier run. *)
Theorem generate_forgets_previous_run
    (rotCreate : RotMap → Z → list (Z * Z * Z)) (seed : Z)
    (m1 m2 : MazeGenerator) :
  width m1 = width m2 → height m1 = height m2 →
  algorithm m1 = algorithm m2 →
  generate rotCreate seed m1 = generate rotCreate seed m2.
Proof.
  intros Hw Hh Ha. rewrite !generate_generatedGrid.
  destruct (generatedGrid_fields rotCreate seed m1) as (Hw1 & Hh1 & Ha1).
  destruct (generatedGrid_fields rotCreate seed m2) as (Hw2 & Hh2 & Ha2).
  apply setStartAndExit_ext; [congruence..|].
  by apply generatedGrid_ext.
Qed.

(** X10 on a fresh object and on a braided, already generated one. *)
Lemma generate_forgets_previous_run_witness :
  (width (setAlgorithm grid5 "eller") = width grid5Relabelled
   ∧ height (setAlgorithm grid5 "eller") = height grid5Relabelled
   ∧ algorithm (setAlgorithm grid5 "eller") = algorithm grid5Relabelled)
  ∧ generate rotRing 3 (setAlgorithm grid5 "eller")
    = generate rotRing 3 grid5Relabelled.
Proof.
  split; [done|].
  apply (generate_forgets_previous_run rotRing 3
           (setAlgorithm grid5 "eller") grid5Relabelled); done.
Defined.

Lemma lastReport_snoc calls (call : Z * Z * Z) x y :
  lastReport (calls ++ [call]) x y
  = if decide (call.1 = (x, y)) then Some call.2 else lastReport calls x y.
Proof.
  unfold lastReport. rewrite filter_app, filter_cons, filter_nil.
  case_decide; [|by rewrite app_nil_r]. by rewrite last_snoc.
Qed.

Lemma isWall_carve_calls m calls x y :
  isWall (foldl carve m calls) x y
  = match lastReport calls x y with
    | Some value => value =? 1
    | None => isWall m x y
    end.
Proof.
  induction calls as [|call calls IH] using rev_ind; [done|].
  rewrite foldl_snoc, lastReport_snoc. unfold carve at 1.
  rewrite isWall_setWall. destruct call as [[cx cy] v]; simpl.
  repeat case_decide; try done; congruence.
Qed.

Lemma isWall_fillWalls_clearMaze m x y :
  isWall (fillWalls (clearMaze m)) x y = isInBounds m x y.
Proof.
  unfold fillWalls.
  assert (Hgen : ∀ (l : list Cell) m0,
            isWall (foldl (λ acc (c : Cell), setWall acc c.1 c.2 true) m0 l) x y
            = if decide ((x, y) ∈ l) then true else isWall m0 x y).
  { induction l as [|c l IH] using rev_ind; intros m0.
    - case_decide as Hin; [by apply elem_of_nil in Hin | done].
    - rewrite foldl_snoc, isWall_setWall, IH.
      destruct c as [cx cy]; simpl.
      destruct (decide ((cx, cy) = (x, y))) as [Heq|Hne].
      + rewrite decide_True; [done|]. apply elem_of_app. right.
        by apply list_elem_of_singleton.
      + destruct (decide ((x, y) ∈ l)) as [Hin|Hnin].
        * rewrite decide_True; [done|]. apply elem_of_app. by left.
        * rewrite decide_False; [done|].
          rewrite elem_of_app, list_elem_of_singleton. intros [?|?]; congruence. }
  rewrite Hgen. change (allCells (clearMaze m)) with (allCells m).
  case_decide as Hin.
  - apply elem_of_allCells in Hin. done.
  - destruct (isInBounds m x y) eqn:Hb; [|done].
    destruct Hin. by apply elem_of_allCells.
Qed.

(** X11.  After [generate], the state of a cell is decided by the last
    call of the ROT.js callback for it: a wall when the value was 1, a
    passage for any other value.  A cell of the grid that was never
    reported is a wall, and a pair outside the bounds that was never
    reported is not. *)
Theorem generate_cell_states
    (rotCreate : RotMap → Z → list (Z * Z * Z)) (seed : Z) (m : MazeGenerator) :
  ∃ r, generate rotCreate seed m = Some r
    ∧ width r = width m ∧ height r = height m
    ∧ ∀ x y,
        isWall r x y
        = match lastReport (rotCreate (selectGenerator m) seed) x y with
          | Some value => value =? 1
          | None => isInBounds m x y
          end.
Proof.
  rewrite generate_generatedGrid.
  destruct (setStartAndExit (generatedGrid rotCreate seed m)) as [r|] eqn:Hr.
  - exists r. split; [done|].
    destruct (setStartAndExit_fields _ _ Hr) as (Hw & Hh & _ & Hm).
    destruct (generatedGrid_fields rotCreate seed m) as (Hw1 & Hh1 & _).
    split; [congruence|]. split; [congruence|].
    intros x y.
    assert (isWall r x y = isWall (generatedGrid rotCreate seed m) x y) as ->
      by (unfold isWall; by rewrite Hm).
    unfold generatedGrid.
    rewrite isWall_carve_calls, selectGenerator_fillWalls_clearMaze.
    by rewrite isWall_fillWalls_clearMaze.
  - exfalso. revert Hr. unfold setStartAndExit.
    destruct (borderCells _) as [|b0 [|b1 rest]]; [done..|].
    rewrite selectLoop_foldl. simpl. by destruct (_ <? _).
Qed.

(** * Properties of the collision system and of levels *)


Lemma canMoveTo_true m (x y : Q) :
  canMoveTo m x y = true
  ↔ ((1 # 2) <= x)%Q ∧ (x < inject_Z (width m) - (1 # 2))%Q
    ∧ ((1 # 2) <= y)%Q ∧ (y < inject_Z (height m) - (1 # 2))%Q
    ∧ isCollidingWithWall m x y = false.
Proof.
  assert (Hlt : ∀ a b : Q, Qltb a b = false ↔ (b <= a)%Q).
  { intros a b. unfold Qltb. rewrite negb_false_iff. apply Qle_bool_iff. }
  assert (Hle : ∀ a b : Q, Qle_bool a b = false ↔ (b < a)%Q).
  { intros a b. rewrite <-not_true_iff_false, Qle_bool_iff.
    split; [apply Qnot_le_lt | apply Qlt_not_le]. }
  unfold canMoveTo, getDimensions.
  destruct (Qltb x (1 # 2)) eqn:Hx1; simpl.
  { split; [done|]. intros (H & _). apply Hlt in H. congruence. }
  destruct (Qle_bool (inject_Z (width m) - (1 # 2)) x) eqn:Hx2; simpl.
  { split; [done|]. intros (_ & H & _). apply Hle in H. congruence. }
  destruct (Qltb y (1 # 2)) eqn:Hy1; simpl.
  { split; [done|]. intros (_ & _ & H & _). apply Hlt in H. congruence. }
  destruct (Qle_bool (inject_Z (height m) - (1 # 2)) y) eqn:Hy2; simpl.
  { split; [done|]. intros (_ & _ & _ & H & _). apply Hle in H. congruence. }
  rewrite negb_true_iff. apply Hlt in Hx1, Hy1. apply Hle in Hx2, Hy2. tauto.
Qed.

(** X12.  A position that [canMoveTo] accepts is looked up in a cell that
    is not a wall, in a column from 1 to [width - 1] and a row from 1 to
    [height - 1]: a position whose cell is in column 0 or in row 0 is
    never accepted, whatever the grid holds there. *)
Theorem canMoveTo_cell_range (m : MazeGenerator) (x y : Q) :
  canMoveTo m x y = true →
  1 ≤ Qfloor (x + (1 # 2)) < width m
  ∧ 1 ≤ Qfloor (y + (1 # 2)) < height m
  ∧ isWall m (Qfloor (x + (1 # 2))) (Qfloor (y + (1 # 2))) = false.
Proof.
  intros (Hx1 & Hx2 & Hy1 & Hy2 & Hwall)%canMoveTo_true.
  assert (Hfloor : ∀ (q : Q) (n : Z),
            ((1 # 2) <= q)%Q → (q < inject_Z n - (1 # 2))%Q →
            1 ≤ Qfloor (q + (1 # 2)) < n).
  { intros q n Hlo Hhi. split.
    - etrans; [|apply (Qfloor_resp_le 1); lra]. done.
    - rewrite Zlt_Qlt. eapply Qle_lt_trans; [apply Qfloor_le|]. lra. }
  split; [by apply Hfloor|]. split; [by apply Hfloor | done].
Qed.

(** X12 on [grid5], at the centre of the cell [(1, 1)]. *)
Lemma canMoveTo_cell_range_witness :
  canMoveTo grid5 1 1 = true
  ∧ 1 ≤ Qfloor (1 + (1 # 2)) < width grid5
  ∧ 1 ≤ Qfloor (1 + (1 # 2)) < height grid5
  ∧ isWall grid5 (Qfloor (1 + (1 # 2))) (Qfloor (1 + (1 # 2))) = false.
Proof.
  split; [by vm_compute|].
  apply (canMoveTo_cell_range grid5 1 1). by vm_compute.
Defined.

(** X13.  [getValidPosition] returns the target, the target slid along
    one axis, or the current position; whenever what it returns is not
    the current position, [canMoveTo] accepts it.  So a player that is at
    an accepted position is never sent to a rejected one. *)
Theorem getValidPosition_safe (m : MazeGenerator)
    (currentX currentY targetX targetY : Q) :
  let p := getValidPosition m currentX currentY targetX targetY in
  (p = (targetX, targetY) ∨ p = (targetX, currentY)
   ∨ p = (currentX, targetY) ∨ p = (currentX, currentY))
  ∧ (p = (currentX, currentY) ∨ canMoveTo m p.1 p.2 = true)
  ∧ (canMoveTo m currentX currentY = true → canMoveTo m p.1 p.2 = true)
  ∧ (canMoveTo m targetX targetY = true → p = (targetX, targetY)).
Proof.
  unfold getValidPosition.
  destruct (canMoveTo m targetX targetY) eqn:H1; cbv zeta; cbn [fst snd].
  { split; [by left|]. split; [by right|]. done. }
  destruct (canMoveTo m targetX currentY) eqn:H2; cbv zeta; cbn [fst snd].
  { split; [right; by left|]. split; [by right|]. done. }
  destruct (canMoveTo m currentX targetY) eqn:H3; cbv zeta; cbn [fst snd].
  { split; [right; right; by left|]. split; [by right|]. done. }
  cbv zeta; cbn [fst snd]. split; [by repeat right|]. split; [by left|]. done.
Qed.

(** X14.  Asking again from the position that [getValidPosition]
    returned, for the same target, returns that position again. *)
Theorem getValidPosition_stable (m : MazeGenerator)
    (currentX currentY targetX targetY : Q) :
  let p := getValidPosition m currentX currentY targetX targetY in
  getValidPosition m p.1 p.2 targetX targetY = p.
Proof.
  unfold getValidPosition.
  destruct (canMoveTo m targetX targetY) eqn:H1; cbv zeta; cbn [fst snd]; [done|].
  destruct (canMoveTo m targetX currentY) eqn:H2; cbv zeta; cbn [fst snd]; [by rewrite ?H1, ?H2|].
  destruct (canMoveTo m currentX targetY) eqn:H3; cbv zeta; cbn [fst snd]; [by rewrite ?H1, ?H2, ?H3|].
  cbv zeta; cbn [fst snd]. by rewrite ?H1, ?H2, ?H3.
Qed.



(** X16.  A level is completed once: the first call of [complete] records
    the time elapsed since the level was created, and later calls change
    nothing. *)
Theorem complete_once {D} (mazeGen : MazeGenerator) (number : Z) (diff : D)
    (created first later : Z) (l : Level D) :
  complete later (complete first l) = complete first l
  ∧ completed (complete first l) = true
  ∧ completionTime (complete later
                      (complete first (newLevel created mazeGen number diff)))
    = Some (first - created).
Proof.
  unfold complete, newLevel. split; [|split].
  - destruct (completed l) eqn:Hc; simpl; [by rewrite Hc | done].
  - by destruct (completed l) eqn:Hc.
  - done.
Qed.

(** * Properties of the difficulty of a level *)

Lemma lerp_floor_bounds (a b : Z) (t : Q) :
  a ≤ b → (0 <= t)%Q → (t <= 1)%Q →
  a ≤ Qfloor (lerp (inject_Z a) (inject_Z b) t) ≤ b.
Proof.
  intros Hab H0 H1. rewrite Zle_Qle in Hab. unfold lerp.
  assert (0 <= (inject_Z b - inject_Z a) * t)%Q as Hlo.
  { apply Qmult_le_0_compat; [lra | done]. }
  assert ((inject_Z b - inject_Z a) * t <= inject_Z b - inject_Z a)%Q as Hhi.
  { rewrite <-(Qmult_1_r (inject_Z b - inject_Z a)) at 2.
    rewrite (Qmult_comm _ t), (Qmult_comm _ 1).
    apply Qmult_le_compat_r; [done | lra]. }
  split.
  - rewrite <-(Qfloor_Z a) at 1. apply Qfloor_resp_le. lra.
  - rewrite <-(Qfloor_Z b) at 2. apply Qfloor_resp_le. lra.
Qed.

Lemma lerp_floor_mono (a b : Z) (t1 t2 : Q) :
  a ≤ b → (t1 <= t2)%Q →
  Qfloor (lerp (inject_Z a) (inject_Z b) t1)
  ≤ Qfloor (lerp (inject_Z a) (inject_Z b) t2).
Proof.
  intros Hab Ht. rewrite Zle_Qle in Hab. apply Qfloor_resp_le. unfold lerp.
  assert ((inject_Z b - inject_Z a) * t1 <= (inject_Z b - inject_Z a) * t2)%Q.
  { rewrite !(Qmult_comm (inject_Z b - inject_Z a)).
    apply Qmult_le_compat_r; [done | lra]. }
  lra.
Qed.

Lemma tierProgressOf_range (lv lo : Z) (hi : Bound) :
  (match hi with Finite n => lo < n | Infinity => True end) →
  lo ≤ lv → leBound lv hi = true →
  ∃ t, tierProgressOf lv lo hi = Some t ∧ (0 <= t)%Q ∧ (t <= 1)%Q.
Proof.
  intros Hband Hlo Hhi. destruct hi as [n|]; simpl in *.
  - apply Z.leb_le in Hhi.
    destruct (n =? lo) eqn:Hn; [apply Z.eqb_eq in Hn; lia|].
    eexists. split; [done|].
    assert (0 < inject_Z (n - lo))%Q as Hpos by (rewrite <-(Zlt_Qlt 0); lia).
    split.
    + apply Qle_shift_div_l; [done|]. rewrite Qmult_0_l.
      rewrite <-(Zle_Qle 0). lia.
    + apply Qle_shift_div_r; [done|]. rewrite Qmult_1_l.
      rewrite <-Zle_Qle. lia.
  - exists 0%Q. split; [done|]. split; done.
Qed.

Lemma tierProgressOf_mono (l1 l2 lo : Z) (hi : Bound) (t1 t2 : Q) :
  (match hi with Finite n => lo < n | Infinity => True end) →
  l1 ≤ l2 →
  tierProgressOf l1 lo hi = Some t1 → tierProgressOf l2 lo hi = Some t2 →
  (t1 <= t2)%Q.
Proof.
  intros Hband Hle. destruct hi as [n|]; simpl.
  - destruct (n =? lo); [done|]. intros [= <-] [= <-].
    unfold Qdiv. apply Qmult_le_compat_r.
    + rewrite <-Zle_Qle. lia.
    + apply Qinv_le_0_compat. rewrite <-(Zle_Qle 0). lia.
  - intros [= <-] [= <-]. done.
Qed.

Lemma tierFor_Some (lv : Z) (tiers : list Tier) (t : Tier) :
  tierFor lv tiers = Some t →
  t ∈ tiers ∧ (levels t).1 ≤ lv ∧ leBound lv (levels t).2 = true.
Proof.
  unfold tierFor. intros Hfind. apply find_some in Hfind as [Hin Hband].
  apply andb_true_iff in Hband as [Hlo Hhi]. apply Z.leb_le in Hlo.
  split; [by apply list_elem_of_In|done].
Qed.

(** X17.  When a well-formed tier holds the level, the descriptor carries
    the name of the first such tier and the level, and its maze size and
    braiding percentage are integers inside the ranges of the tier, the
    bounds included. *)
Theorem getDifficultyForLevel_within_ranges
    (lv : Z) (tiers : list Tier) (t : Tier) :
  tierFor lv tiers = Some t → wellFormedTier t →
  ∃ d, getDifficultyForLevel lv tiers = FromTier d
    ∧ tier d = name t ∧ level d = lv
    ∧ (sizeRange t).1 ≤ mazeSize d ≤ (sizeRange t).2
    ∧ (braidingRange t).1 ≤ braidingPercent d ≤ (braidingRange t).2.
Proof.
  intros Hfor (Hband & Hsize & Hbraid).
  destruct (tierFor_Some _ _ _ Hfor) as (_ & Hlo & Hhi).
  destruct (tierProgressOf_range lv _ _ Hband Hlo Hhi) as (p & Hp & H0 & H1).
  unfold getDifficultyForLevel. rewrite Hfor, Hp.
  eexists. split; [done|]. simpl. do 2 (split; [done|]).
  split; by apply lerp_floor_bounds.
Qed.

(** X17 at level 18 of [DIFFICULTY_TIERS]. *)
Lemma getDifficultyForLevel_within_ranges_witness :
  ∃ t,
    (tierFor 18 DIFFICULTY_TIERS = Some t ∧ wellFormedTier t)
    ∧ ∃ d, getDifficultyForLevel 18 DIFFICULTY_TIERS = FromTier d
        ∧ tier d = name t ∧ level d = 18
        ∧ (sizeRange t).1 ≤ mazeSize d ≤ (sizeRange t).2
        ∧ (braidingRange t).1 ≤ braidingPercent d ≤ (braidingRange t).2.
Proof.
  eexists. split; [split; [by vm_compute | by vm_compute]|].
  apply (getDifficultyForLevel_within_ranges 18 DIFFICULTY_TIERS);
    by vm_compute.
Defined.

(** X18.  When no tier holds the level (below the first band as well as
    beyond the last one), [getDifficultyForLevel] returns the last tier
    of the list as it is, not a descriptor: no level, maze size, braiding
    percentage or algorithm is computed.  With [DIFFICULTY_TIERS] this
    happens exactly for the levels below 1. *)
Theorem getDifficultyForLevel_outside_tiers (lv : Z) (tiers : list Tier) :
  (tierFor lv tiers = None →
     getDifficultyForLevel lv tiers = HighestTier (last tiers))
  ∧ (tierFor lv DIFFICULTY_TIERS = None ↔ lv < 1)
  ∧ (lv < 1 →
       getDifficultyForLevel lv DIFFICULTY_TIERS
       = HighestTier (last DIFFICULTY_TIERS)).
Proof.
  assert (Htable : tierFor lv DIFFICULTY_TIERS = None ↔ lv < 1).
  { unfold tierFor, DIFFICULTY_TIERS. cbn [List.find levels fst snd leBound].
    destruct (1 <=? lv) eqn:H1, (lv <=? 10) eqn:H2, (11 <=? lv) eqn:H3,
      (lv <=? 25) eqn:H4, (26 <=? lv) eqn:H5, (lv <=? 50) eqn:H6,
      (51 <=? lv) eqn:H7, (lv <=? 100) eqn:H8, (101 <=? lv) eqn:H9;
      cbn [andb];
      rewrite ?Z.leb_le, ?Z.leb_gt in *; split; (done || lia). }
  split; [|split; [done|]].
  - intros Hnone. unfold getDifficultyForLevel. by rewrite Hnone.
  - intros Hlv. apply Htable in Hlv. unfold getDifficultyForLevel. by rewrite Hlv.
Qed.

Lemma tierFor_table (lv : Z) :
  1 ≤ lv →
  (lv ≤ 10 ∧ tierFor lv DIFFICULTY_TIERS = DIFFICULTY_TIERS !! 0%nat)
  ∨ (11 ≤ lv ≤ 25 ∧ tierFor lv DIFFICULTY_TIERS = DIFFICULTY_TIERS !! 1%nat)
  ∨ (26 ≤ lv ≤ 50 ∧ tierFor lv DIFFICULTY_TIERS = DIFFICULTY_TIERS !! 2%nat)
  ∨ (51 ≤ lv ≤ 100 ∧ tierFor lv DIFFICULTY_TIERS = DIFFICULTY_TIERS !! 3%nat)
  ∨ (101 ≤ lv ∧ tierFor lv DIFFICULTY_TIERS = DIFFICULTY_TIERS !! 4%nat).
Proof.
  intros Hlv. unfold tierFor, DIFFICULTY_TIERS.
  cbn [List.find levels fst snd leBound lookup list_lookup].
  destruct (1 <=? lv) eqn:H1, (lv <=? 10) eqn:H2, (11 <=? lv) eqn:H3,
    (lv <=? 25) eqn:H4, (26 <=? lv) eqn:H5, (lv <=? 50) eqn:H6,
    (51 <=? lv) eqn:H7, (lv <=? 100) eqn:H8, (101 <=? lv) eqn:H9;
    cbn [andb];
    rewrite ?Z.leb_le, ?Z.leb_gt in *; try lia;
    first [ left; split; [lia | reflexivity]
          | right; left; split; [lia | reflexivity]
          | right; right; left; split; [lia | reflexivity]
          | right; right; right; left; split; [lia | reflexivity]
          | right; right; right; right; split; [lia | reflexivity] ].
Qed.

Lemma wellFormed_DIFFICULTY_TIERS (t : Tier) :
  t ∈ DIFFICULTY_TIERS → wellFormedTier t.
Proof.
  unfold DIFFICULTY_TIERS. rewrite !elem_of_cons, elem_of_nil.
  intros [->|[->|[->|[->|[->|[]]]]]]; by vm_compute.
Qed.

Lemma jsIndex_rem_defined {A} (array : list A) (lv : Z) :
  0 ≤ lv → array ≠ [] →
  is_Some (jsIndex array (Z.rem lv (Z.of_nat (length array)))).
Proof.
  intros Hlv Hne. unfold jsIndex.
  assert (0 < Z.of_nat (length array)) by (destruct array; simpl; [done|lia]).
  pose proof (Z.rem_bound_pos lv _ Hlv H) as [Hlo Hhi].
  destruct (0 <=? _) eqn:Hle; [|apply Z.leb_gt in Hle; lia].
  apply lookup_lt_is_Some. lia.
Qed.

Lemma same_tier_monotone (l1 l2 : Z) (tiers : list Tier) (t : Tier) :
  tierFor l1 tiers = Some t → tierFor l2 tiers = Some t →
  wellFormedTier t → l1 ≤ l2 →
  ∃ d1 d2,
    getDifficultyForLevel l1 tiers = FromTier d1
    ∧ getDifficultyForLevel l2 tiers = FromTier d2
    ∧ mazeSize d1 ≤ mazeSize d2
    ∧ braidingPercent d1 ≤ braidingPercent d2.
Proof.
  intros Hf1 Hf2 (Hband & Hsize & Hbraid) Hle.
  destruct (tierFor_Some _ _ _ Hf1) as (_ & Hlo1 & Hhi1).
  destruct (tierFor_Some _ _ _ Hf2) as (_ & Hlo2 & Hhi2).
  destruct (tierProgressOf_range l1 _ _ Hband Hlo1 Hhi1) as (p1 & Hp1 & _).
  destruct (tierProgressOf_range l2 _ _ Hband Hlo2 Hhi2) as (p2 & Hp2 & _).
  pose proof (tierProgressOf_mono _ _ _ _ _ _ Hband Hle Hp1 Hp2) as Hp.
  unfold getDifficultyForLevel. rewrite Hf1, Hf2, Hp1, Hp2.
  eexists _, _. do 2 (split; [done|]). simpl.
  split; by apply lerp_floor_mono.
Qed.

(** X19.  With [DIFFICULTY_TIERS], every level from 1 on gets a
    descriptor: a maze size from 15 to 100, a braiding percentage from 0
    to 100 and an algorithm name that is defined.  Neither the maze size
    nor the braiding percentage ever decreases when the level grows. *)
Theorem difficulty_grows_with_level (l1 l2 : Z) :
  1 ≤ l1 → l1 ≤ l2 →
  ∃ d1 d2 alg1,
    getDifficultyForLevel l1 DIFFICULTY_TIERS = FromTier d1
    ∧ getDifficultyForLevel l2 DIFFICULTY_TIERS = FromTier d2
    ∧ level d1 = l1 ∧ algorithmName d1 = Some alg1
    ∧ 15 ≤ mazeSize d1 ≤ 100 ∧ 0 ≤ braidingPercent d1 ≤ 100
    ∧ mazeSize d1 ≤ mazeSize d2
    ∧ braidingPercent d1 ≤ braidingPercent d2.
Proof.
  intros H1 Hle.
  assert (Hin : ∀ lv t, tierFor lv DIFFICULTY_TIERS = Some t →
            t ∈ DIFFICULTY_TIERS).
  { intros lv t Ht. by apply tierFor_Some in Ht as [? _]. }
  assert (Hdesc : ∀ lv t, tierFor lv DIFFICULTY_TIERS = Some t →
            ∃ d, getDifficultyForLevel lv DIFFICULTY_TIERS = FromTier d
              ∧ level d = lv
              ∧ (sizeRange t).1 ≤ mazeSize d ≤ (sizeRange t).2
              ∧ (braidingRange t).1 ≤ braidingPercent d ≤ (braidingRange t).2).
  { intros lv t Ht.
    destruct (tierFor_Some _ _ _ Ht) as (_ & Hlo & Hhi).
    pose proof (wellFormed_DIFFICULTY_TIERS t (Hin _ _ Ht)) as (Hband & Hs & Hb).
    destruct (tierProgressOf_range lv _ _ Hband Hlo Hhi) as (p & Hp & H0 & H1').
    unfold getDifficultyForLevel. rewrite Ht, Hp. eexists. split; [done|].
    simpl. split; [done|]. split; by apply lerp_floor_bounds. }
  assert (Halg : ∀ lv t d, 1 ≤ lv → tierFor lv DIFFICULTY_TIERS = Some t →
            getDifficultyForLevel lv DIFFICULTY_TIERS = FromTier d →
            is_Some (algorithmName d)).
  { intros lv t d Hlv Ht. unfold getDifficultyForLevel.
    destruct (tierFor_Some _ _ _ Ht) as (_ & Hlo & Hhi).
    pose proof (wellFormed_DIFFICULTY_TIERS t (Hin _ _ Ht)) as (Hband & _).
    destruct (tierProgressOf_range lv _ _ Hband Hlo Hhi) as (p & Hp & _).
    rewrite Ht, Hp. intros [= <-]. simpl.
    case_bool_decide; [apply jsIndex_rem_defined; [lia|done]|].
    apply jsIndex_rem_defined; [lia|].
    pose proof (Hin _ _ Ht) as Hmem. unfold DIFFICULTY_TIERS in Hmem.
    rewrite !elem_of_cons, elem_of_nil in Hmem.
    by destruct Hmem as [->|[->|[->|[->|[->|[]]]]]]. }
  assert (H2 : 1 ≤ l2) by lia.
  destruct (tierFor_table l1 H1) as [[B1 T1]|[[B1 T1]|[[B1 T1]|[[B1 T1]|[B1 T1]]]]];
  destruct (tierFor_table l2 H2) as [[B2 T2]|[[B2 T2]|[[B2 T2]|[[B2 T2]|[B2 T2]]]]];
    try lia;
    cbn [DIFFICULTY_TIERS lookup list_lookup] in T1, T2;
    destruct (Hdesc _ _ T1) as (d1 & Hd1 & Hl1 & Hs1 & Hb1);
    destruct (Hdesc _ _ T2) as (d2 & Hd2 & Hl2 & Hs2 & Hb2);
    destruct (Halg _ _ _ H1 T1 Hd1) as [alg1 Halg1];
    cbn [sizeRange braidingRange fst snd] in Hs1, Hs2, Hb1, Hb2;
    exists d1, d2, alg1; (do 4 (split; [done|]));
    (split; [lia|]); (split; [lia|]);
    first [ split; lia
          | destruct (same_tier_monotone l1 l2 _ _ T1 T2
                        (wellFormed_DIFFICULTY_TIERS _ (Hin _ _ T1)) Hle)
              as (d1' & d2' & Hd1' & Hd2' & Hms & Hmb);
            rewrite Hd1 in Hd1'; rewrite Hd2 in Hd2';
            injection Hd1' as <-; injection Hd2' as <-; by split ].
Qed.

(** X19 for the levels 10 and 11, across two tiers. *)
Lemma difficulty_grows_with_level_witness :
  (1 ≤ 10 ∧ 10 ≤ 11)
  ∧ ∃ d1 d2 alg1,
      getDifficultyForLevel 10 DIFFICULTY_TIERS = FromTier d1
      ∧ getDifficultyForLevel 11 DIFFICULTY_TIERS = FromTier d2
      ∧ level d1 = 10 ∧ algorithmName d1 = Some alg1
      ∧ 15 ≤ mazeSize d1 ≤ 100 ∧ 0 ≤ braidingPercent d1 ≤ 100
      ∧ mazeSize d1 ≤ mazeSize d2
      ∧ braidingPercent d1 ≤ braidingPercent d2.
Proof.
  split; [lia|]. apply (difficulty_grows_with_level 10 11); lia.
Defined.

(** * Properties of the maze of a level *)

Lemma setStartAndExit_total m : is_Some (setStartAndExit m).
Proof.
  unfold setStartAndExit. destruct (borderCells m) as [|b0 [|b1 rest]]; [done..|].
  rewrite selectLoop_foldl. simpl. by destruct (_ <? _).
Qed.

Lemma generate_fields rotCreate seed m r :
  generate rotCreate seed m = Some r →
  width r = width m ∧ height r = height m ∧ algorithm r = algorithm m.
Proof.
  rewrite generate_generatedGrid. intros Hr.
  destruct (setStartAndExit_fields _ _ Hr) as (-> & -> & -> & _).
  apply generatedGrid_fields.
Qed.

(** X20.  For every level from 1 on, [generateLevel] builds a square
    maze whose side is the maze size of the level capped at 60, so from
    15 to 60 and exactly 60 from level 51 on; the algorithm key is
    ['divided'] whatever the tier lists.  Braiding keeps the dimensions
    and every passage of the generated maze, and up to level 11 the
    braiding percentage is 0 and the maze is the generated one. *)
Theorem generateLevelMaze_table
    (rotCreate : RotMap → Z → list (Z * Z * Z)) (seed : Z) (draws : nat → Q)
    (lv : Z) :
  1 ≤ lv → validDraws draws →
  ∃ d generated r,
    getDifficultyForLevel lv DIFFICULTY_TIERS = FromTier d
    ∧ generate rotCreate seed
        (newMazeGenerator (Z.min (mazeSize d) 60) (Z.min (mazeSize d) 60)
           "divided")
      = Some generated
    ∧ generateLevelMaze rotCreate seed draws d = Some r
    ∧ width r = Z.min (mazeSize d) 60 ∧ height r = Z.min (mazeSize d) 60
    ∧ algorithm r = "divided"
    ∧ 15 ≤ width r ≤ 60
    ∧ (51 ≤ lv → width r = 60)
    ∧ (lv ≤ 11 → r = generated)
    ∧ (∀ x y, isWall generated x y = false → isWall r x y = false).
Proof.
  intros Hlv Hdraws.
  assert (Hdesc : ∃ d, getDifficultyForLevel lv DIFFICULTY_TIERS = FromTier d
            ∧ 15 ≤ mazeSize d
            ∧ (51 ≤ lv → 60 ≤ mazeSize d)
            ∧ (lv ≤ 11 → braidingPercent d = 0)).
  { assert (Hgen : ∀ t, tierFor lv DIFFICULTY_TIERS = Some t →
              ∃ d, getDifficultyForLevel lv DIFFICULTY_TIERS = FromTier d
                ∧ (sizeRange t).1 ≤ mazeSize d ≤ (sizeRange t).2
                ∧ (braidingRange t).1 ≤ braidingPercent d
                  ≤ (braidingRange t).2).
    { intros t Ht.
      destruct (tierFor_Some _ _ _ Ht) as (Hin & Hlo & Hhi).
      pose proof (wellFormed_DIFFICULTY_TIERS t Hin) as (Hband & Hs & Hb).
      destruct (tierProgressOf_range lv _ _ Hband Hlo Hhi)
        as (p & Hp & H0 & H1).
      unfold getDifficultyForLevel. rewrite Ht, Hp. eexists. split; [done|].
      simpl. split; by apply lerp_floor_bounds. }
    destruct (tierFor_table lv Hlv)
      as [[B T]|[[B T]|[[B T]|[[B T]|[B T]]]]];
      cbn [DIFFICULTY_TIERS lookup list_lookup] in T;
      destruct (Hgen _ T) as (d & Hd & Hs & Hb);
      cbn [sizeRange braidingRange fst snd] in Hs, Hb;
      exists d; (split; [done|]); (split; [lia|]); (split; [lia|]);
      intros Hle; try lia.
    assert (lv = 11) as -> by lia. revert Hd. vm_compute. by intros [= <-]. }
  destruct Hdesc as (d & Hd & Hmin & Hbig & Hzero).
  set (side := Z.min (mazeSize d) 60) in *.
  destruct (setStartAndExit_total
              (generatedGrid rotCreate seed (newMazeGenerator side side "divided")))
    as [generated Hgen].
  rewrite <-generate_generatedGrid in Hgen.
  destruct (generate_fields _ _ _ _ Hgen) as (Hgw & Hgh & Hga).
  destruct (braid_total (inject_Z (braidingPercent d)) draws generated Hdraws)
    as [r Hr].
  pose proof (braid_carvedFrom _ _ _ _ Hr) as Hcarved.
  pose proof Hcarved as (Hw & Hh & Ha & _).
  exists d, generated, r. split; [done|]. split; [done|].
  split; [unfold generateLevelMaze; fold side; by rewrite Hgen|].
  split; [by rewrite Hw, Hgw|]. split; [by rewrite Hh, Hgh|].
  split; [by rewrite Ha, Hga|].
  split; [rewrite Hw, Hgw; simpl; unfold side; lia|].
  split; [intros H51; rewrite Hw, Hgw; simpl; unfold side;
          specialize (Hbig H51); lia|].
  split.
  - intros H11. rewrite (Hzero H11) in Hr. unfold braid in Hr.
    change (Qle_bool (inject_Z 0) 0) with true in Hr. congruence.
  - intros x y. by apply carvedFrom_isWall.
Qed.

(** X20 for level 7, on ring-shaped generator output. *)
Lemma generateLevelMaze_table_witness :
  (1 ≤ 7 ∧ validDraws alternatingDraws)
  ∧ ∃ d generated r,
      getDifficultyForLevel 7 DIFFICULTY_TIERS = FromTier d
      ∧ generate rotRing 5
          (newMazeGenerator (Z.min (mazeSize d) 60) (Z.min (mazeSize d) 60)
             "divided")
        = Some generated
      ∧ generateLevelMaze rotRing 5 alternatingDraws d = Some r
      ∧ width r = Z.min (mazeSize d) 60 ∧ height r = Z.min (mazeSize d) 60
      ∧ algorithm r = "divided"
      ∧ 15 ≤ width r ≤ 60
      ∧ (51 ≤ 7 → width r = 60)
      ∧ (7 ≤ 11 → r = generated)
      ∧ (∀ x y, isWall generated x y = false → isWall r x y = false).
Proof.
  split; [split; [lia | apply validDraws_alternating]|].
  apply (generateLevelMaze_table rotRing 5 alternatingDraws 7);
    [lia | apply validDraws_alternating].
Defined.

(** * Endpoints and braiding *)

Lemma setStartAndExit_some_endpoints m :
  ∃ g s e, setStartAndExit m = Some g
    ∧ startPos g = Some s ∧ exitPos g = Some e
    ∧ ((2 ≤ length (borderCells m))%nat → s ≠ e ∧ passage g s ∧ passage g e).
Proof.
  destruct (decide (length (borderCells m) < 2)%nat) as [Hfew|Hmany].
  - rewrite (setStartAndExit_fallback m Hfew). eexists _, _, _.
    do 3 (split; [done|]). lia.
  - destruct (borderCells_two m) as (b0 & b1 & rest & Hbc); [lia|].
    destruct (winner_first_longest m b0 b1 rest Hbc)
      as (i0 & j0 & Hij & Hi & Hj & _).
    assert (Hne : (winner m b0 b1).1.2 ≠ (winner m b0 b1).2).
    { intros Heq. rewrite Heq in Hi.
      pose proof (NoDup_lookup _ _ _ _ (NoDup_borderCells m) Hi Hj). lia. }
    apply list_elem_of_lookup_2, elem_of_borderCells in Hi as [Hpi _].
    apply list_elem_of_lookup_2, elem_of_borderCells in Hj as [Hpj _].
    rewrite (setStartAndExit_normal m b0 b1 rest Hbc).
    destruct (_ <? _); eexists _, _, _; (do 3 (split; [done|])); intros _;
      (split; [done|]); by split.
Qed.

(** X21.  The endpoints are chosen inside [generate], before any
    braiding, and [braid] does not choose again: after
    [generate().braid(percentage)] the start and the exit are the ones
    selected on the unbraided grid.  When that grid had at least 2 border
    cells they are still two distinct passage cells of the braided
    grid. *)
Theorem braid_keeps_endpoints
    (percentage : Q) (draws : nat → Q) (m : MazeGenerator) :
  validDraws draws →
  ∃ g r s e,
    setStartAndExit m = Some g ∧ braid percentage draws g = Some r
    ∧ startPos g = Some s ∧ exitPos g = Some e
    ∧ startPos r = Some s ∧ exitPos r = Some e
    ∧ ((2 ≤ length (borderCells m))%nat →
         s ≠ e ∧ passage r s ∧ passage r e).
Proof.
  intros Hdraws.
  destruct (setStartAndExit_some_endpoints m) as (g & s & e & Hg & Hs & He & Hok).
  destruct (braid_total percentage draws g Hdraws) as [r Hr].
  pose proof (braid_carvedFrom _ _ _ _ Hr) as Hcarved.
  pose proof Hcarved as (_ & _ & _ & Hrs & Hre & _).
  exists g, r, s, e. do 4 (split; [done|]).
  split; [congruence|]. split; [congruence|].
  intros Hlen. destruct (Hok Hlen) as (Hne & Hps & Hpe).
  split; [done|]. split; by eapply carvedFrom_passage.
Qed.

(** X21 on [grid5], braided at 100 percent. *)
Lemma braid_keeps_endpoints_witness :
  validDraws alternatingDraws
  ∧ ∃ g r s e,
      setStartAndExit grid5 = Some g ∧ braid 100 alternatingDraws g = Some r
      ∧ startPos g = Some s ∧ exitPos g = Some e
      ∧ startPos r = Some s ∧ exitPos r = Some e
      ∧ ((2 ≤ length (borderCells grid5))%nat →
           s ≠ e ∧ passage r s ∧ passage r e).
Proof.
  split; [apply validDraws_alternating|].
  apply (braid_keeps_endpoints 100 alternatingDraws grid5),
    validDraws_alternating.
Defined.
